(** * fyne-cross: the list flags of [internal/command/flag.go]

    The file embeds the three custom [flag.Value] implementations of
    [internal/command/flag.go] ([envFlag], [targetArchFlag], [tagsFlag])
    together with the two functions of Go's [strings] package they call,
    and proves the properties of their [Set] methods.  It then embeds
    [defaultOutput] and [newCommonFlags] over the part of the packages
    [flag] and [path/filepath] they use, and the [String] methods.

    Go strings are byte sequences: they are modelled by [string], whose
    characters are the bytes.  A Go slice of strings is a [list string].
    A method with a pointer receiver that returns an [error] is a state
    transformer over the receiver's value that may stop with an error. *)

From Stdlib Require Import List String Ascii Bool Arith NArith ZArith Lia.
Import ListNotations.

Open Scope string_scope.

(** ** Go's [strings] package *)

Module GoStrings.

(** [s[:n]] and [s[n:]]. *)
Fixpoint slice_to (n : nat) (s : string) : string :=
  match n, s with
  | S n', String c s' => String c (slice_to n' s')
  | _, _ => ""
  end.

Fixpoint slice_from (n : nat) (s : string) : string :=
  match n, s with
  | S n', String _ s' => slice_from n' s'
  | _, _ => s
  end.

(** [strings.Count(s, sep)] for a separator of one byte. *)
Fixpoint Count (s : string) (sep : ascii) : nat :=
  match s with
  | "" => 0
  | String c s' => (if Ascii.eqb c sep then 1 else 0) + Count s' sep
  end.

(** [strings.Index(s, sep)] for a separator of one byte; [None] is Go's -1. *)
Fixpoint Index (s : string) (sep : ascii) : option nat :=
  match s with
  | "" => None
  | String c s' =>
      if Ascii.eqb c sep then Some 0
      else match Index s' sep with
           | Some m => Some (S m)
           | None => None
           end
  end.

(** The loop of [genSplit]: [n] is the number of cuts still allowed,
    [a[i] = s[:m]; s = s[m+len(sep):]] at each cut, and the rest of the
    string is the last piece. *)
Fixpoint genSplit_loop (n : nat) (s : string) (sep : ascii) : list string :=
  match n with
  | 0 => [s]
  | S n' =>
      match Index s sep with
      | None => [s]
      | Some m => slice_to m s :: genSplit_loop n' (slice_from (m + 1) s) sep
      end
  end.

(** [strings.Split(s, sep)], that is [genSplit(s, sep, 0, -1)], for a
    separator of one byte (both call sites of [flag.go] and the validation
    loop pass a one-byte literal): [Count(s, sep) + 1] pieces. *)
Definition Split (s : string) (sep : ascii) : list string :=
  genSplit_loop (Count s sep) s sep.

(** *** [unicode/utf8] and [unicode.IsSpace], as [TrimSpace] uses them *)

Definition byte (c : ascii) : N := N_of_ascii c.

(** [s[i]], for an index in range. *)
Definition byte_at (s : string) (i : nat) : N :=
  match String.get i s with
  | Some c => byte c
  | None => 0%N
  end.

Definition RuneError : N := 0xFFFD%N.
Definition RuneSelf : N := 0x80%N.
Definition UTFMax : nat := 4.

Definition maskx : N := 0x3F%N.
Definition mask2 : N := 0x1F%N.
Definition mask3 : N := 0x0F%N.
Definition mask4 : N := 0x07%N.
Definition locb : N := 0x80%N.
Definition hicb : N := 0xBF%N.

(** The table [first] of [unicode/utf8], with the [acceptRanges] entry of
    each leading byte: an ASCII byte, an invalid leading byte, or the
    length of the sequence and the range allowed for its second byte. *)
Inductive firstInfo : Type :=
| first_as
| first_xx
| first_lead (sz : nat) (lo hi : N).

Definition first (s0 : N) : firstInfo :=
  if (s0 <? 0x80)%N then first_as
  else if (s0 <? 0xC2)%N then first_xx
  else if (s0 <=? 0xDF)%N then first_lead 2 locb hicb
  else if (s0 =? 0xE0)%N then first_lead 3 0xA0%N hicb
  else if (s0 <=? 0xEC)%N then first_lead 3 locb hicb
  else if (s0 =? 0xED)%N then first_lead 3 locb 0x9F%N
  else if (s0 <=? 0xEF)%N then first_lead 3 locb hicb
  else if (s0 =? 0xF0)%N then first_lead 4 0x90%N hicb
  else if (s0 <=? 0xF3)%N then first_lead 4 locb hicb
  else if (s0 =? 0xF4)%N then first_lead 4 locb 0x8F%N
  else first_xx.

(** [utf8.DecodeRuneInString]: the first rune of [s] and its width. *)
Definition DecodeRuneInString (s : string) : N * nat :=
  match s with
  | "" => (RuneError, 0)
  | String c0 t0 =>
      let s0 := byte c0 in
      match first s0 with
      | first_as => (s0, 1)
      | first_xx => (RuneError, 1)
      | first_lead sz lo hi =>
          if Nat.ltb (String.length s) sz then (RuneError, 1) else
          match t0 with
          | "" => (RuneError, 1)
          | String c1 t1 =>
              let s1 := byte c1 in
              if ((s1 <? lo) || (hi <? s1))%N then (RuneError, 1) else
              if Nat.leb sz 2 then
                (N.lor (N.shiftl (N.land s0 mask2) 6) (N.land s1 maskx), 2)
              else
              match t1 with
              | "" => (RuneError, 1)
              | String c2 t2 =>
                  let s2 := byte c2 in
                  if ((s2 <? locb) || (hicb <? s2))%N then (RuneError, 1) else
                  if Nat.leb sz 3 then
                    (N.lor (N.lor (N.shiftl (N.land s0 mask3) 12)
                                  (N.shiftl (N.land s1 maskx) 6))
                           (N.land s2 maskx), 3)
                  else
                  match t2 with
                  | "" => (RuneError, 1)
                  | String c3 _ =>
                      let s3 := byte c3 in
                      if ((s3 <? locb) || (hicb <? s3))%N then (RuneError, 1)
                      else
                        (N.lor (N.lor (N.lor (N.shiftl (N.land s0 mask4) 18)
                                             (N.shiftl (N.land s1 maskx) 12))
                                      (N.shiftl (N.land s2 maskx) 6))
                               (N.land s3 maskx), 4)
                  end
              end
          end
      end
  end.

(** [utf8.RuneStart]. *)
Definition RuneStart (b : N) : bool :=
  negb (N.land b 0xC0 =? 0x80)%N.

(** The loop [for start--; start >= lim; start-- { if RuneStart(s[start])
    { break } }] of [DecodeLastRuneInString]; [n] counts the indices from
    [start] down to [lim]. *)
Fixpoint lastRuneStart (n : nat) (s : string) (start : Z) : Z :=
  match n with
  | 0 => start
  | S n' =>
      if RuneStart (byte_at s (Z.to_nat start)) then start
      else lastRuneStart n' s (start - 1)
  end.

(** [utf8.DecodeLastRuneInString]: the last rune of [s] and its width. *)
Definition DecodeLastRuneInString (s : string) : N * nat :=
  let end_ := String.length s in
  if Nat.eqb end_ 0 then (RuneError, 0) else
  let r := byte_at s (end_ - 1) in
  if (r <? RuneSelf)%N then (r, 1) else
  let lim := Z.max 0 (Z.of_nat end_ - Z.of_nat UTFMax) in
  let start0 := (Z.of_nat end_ - 2)%Z in
  let start := lastRuneStart (Z.to_nat (start0 - lim + 1)) s start0 in
  let start := if (start <? 0)%Z then 0 else Z.to_nat start in
  let (r, size) := DecodeRuneInString (slice_from start s) in
  if Nat.eqb (start + size) end_ then (r, size) else (RuneError, 1).

(** The array [asciiSpace] of [strings]. *)
Definition asciiSpace (c : N) : bool :=
  ((c =? 9) || (c =? 10) || (c =? 11) || (c =? 12) || (c =? 13)
   || (c =? 32))%N.

(** [unicode.IsSpace]: the Latin-1 cases, then the [White_Space] table. *)
Definition IsSpace (r : N) : bool :=
  if (r <=? 0xFF)%N then
    (asciiSpace r || (r =? 0x85) || (r =? 0xA0))%N
  else
    ((r =? 0x1680) || ((0x2000 <=? r) && (r <=? 0x200A)) || (r =? 0x2028)
     || (r =? 0x2029) || (r =? 0x202F) || (r =? 0x205F) || (r =? 0x3000))%N.

(** [indexFunc(s, f, truth)]: [for i, r := range s], the index of the first
    rune with [f(r) == truth].  [i] is the index of the head of [s] in the
    whole string and [skip] the bytes left of the rune being stepped over. *)
Fixpoint indexFunc_from (s : string) (i skip : nat) (f : N -> bool)
  (truth : bool) : option nat :=
  match s with
  | "" => None
  | String _ s' =>
      match skip with
      | S k => indexFunc_from s' (S i) k f truth
      | 0 =>
          let (r, size) := DecodeRuneInString s in
          if Bool.eqb (f r) truth then Some i
          else indexFunc_from s' (S i) (size - 1) f truth
      end
  end.

Definition indexFunc (s : string) (f : N -> bool) (truth : bool) : option nat :=
  indexFunc_from s 0 0 f truth.

(** [lastIndexFunc(s, f, truth)]: [for i := len(s); i > 0; { r, size :=
    DecodeLastRuneInString(s[0:i]); i -= size; ... }].  [rs] is [s[0:i]]
    reversed. *)
Fixpoint lastIndexFunc_rev (rs : list ascii) (skip : nat) (f : N -> bool)
  (truth : bool) : option nat :=
  match rs with
  | [] => None
  | _ :: rs' =>
      match skip with
      | S k => lastIndexFunc_rev rs' k f truth
      | 0 =>
          let (r, size) :=
            DecodeLastRuneInString (string_of_list_ascii (rev rs)) in
          if Bool.eqb (f r) truth then Some (List.length rs - size)
          else lastIndexFunc_rev rs' (size - 1) f truth
      end
  end.

Definition lastIndexFunc (s : string) (f : N -> bool) (truth : bool)
  : option nat :=
  lastIndexFunc_rev (rev (list_ascii_of_string s)) 0 f truth.

(** [strings.TrimLeftFunc], [strings.TrimRightFunc], [strings.TrimFunc]. *)
Definition TrimLeftFunc (s : string) (f : N -> bool) : string :=
  match indexFunc s f false with
  | None => ""
  | Some i => slice_from i s
  end.

Definition TrimRightFunc (s : string) (f : N -> bool) : string :=
  match lastIndexFunc s f false with
  | Some i =>
      if (RuneSelf <=? byte_at s i)%N
      then slice_to (i + snd (DecodeRuneInString (slice_from i s))) s
      else slice_to (i + 1) s
  | None => ""
  end.

Definition TrimFunc (s : string) (f : N -> bool) : string :=
  TrimRightFunc (TrimLeftFunc s f) f.

(** The second loop of [TrimSpace], from the end of [s[start:]], given
    reversed. *)
Fixpoint TrimSpace_stop (rs : list ascii) : string :=
  match rs with
  | [] => ""
  | c :: rs' =>
      if (RuneSelf <=? byte c)%N
      then TrimRightFunc (string_of_list_ascii (rev rs)) IsSpace
      else if asciiSpace (byte c) then TrimSpace_stop rs'
      else string_of_list_ascii (rev rs)
  end.

(** [strings.TrimSpace]: the first loop over the leading bytes, which
    falls back to [TrimFunc] at a byte that is not ASCII, then the second
    loop over the trailing bytes. *)
Fixpoint TrimSpace (s : string) : string :=
  match s with
  | "" => ""
  | String c s' =>
      if (RuneSelf <=? byte c)%N then TrimFunc s IsSpace
      else if asciiSpace (byte c) then TrimSpace s'
      else TrimSpace_stop (rev (list_ascii_of_string s))
  end.

End GoStrings.

Import GoStrings.

(** ** Function bodies: statements over the receiver

    A statement runs on the value the receiver points to and either goes
    on to the next statement or leaves the function with [return]. *)

Module GoStmt.

Inductive flow (R A : Type) : Type :=
| Next (a : A)
| Returned (r : R).

Arguments Next {R A} a.
Arguments Returned {R A} r.

Definition Stmt (S R A : Type) : Type := S -> S * flow R A.

Definition ret {S R A : Type} (a : A) : Stmt S R A :=
  fun s => (s, Next a).

Definition bind {S R A B : Type} (m : Stmt S R A) (k : A -> Stmt S R B)
  : Stmt S R B :=
  fun s =>
    match m s with
    | (s', Next a) => k a s'
    | (s', Returned r) => (s', Returned r)
    end.

(** [*p] read and [*p = v]. *)
Definition load {S R : Type} : Stmt S R S :=
  fun s => (s, Next s).

Definition store {S R : Type} (v : S) : Stmt S R unit :=
  fun _ => (v, Next tt).

(** [return r]. *)
Definition return_ {S R A : Type} (r : R) : Stmt S R A :=
  fun s => (s, Returned r).

(** [if c { body }]. *)
Definition when {S R : Type} (c : bool) (body : Stmt S R unit)
  : Stmt S R unit :=
  if c then body else ret tt.

(** [for _, v := range l { body }] over a slice value [l]. *)
Fixpoint range {S R A : Type} (l : list A) (body : A -> Stmt S R unit)
  : Stmt S R unit :=
  match l with
  | [] => ret tt
  | v :: l' => bind (body v) (fun _ => range l' body)
  end.

(** A method: the receiver's value before the call gives its value after
    the call and the result. *)
Definition func {S R : Type} (body : Stmt S R R) : S -> S * R :=
  fun s =>
    match body s with
    | (s', Next r) => (s', r)
    | (s', Returned r) => (s', r)
    end.

End GoStmt.

Import GoStmt.

Declare Scope stmt_scope.
Delimit Scope stmt_scope with stmt.

Notation "x <- m ;; k" := (bind m (fun x => k))
  (at level 61, m at next level, right associativity) : stmt_scope.
Notation "m ;; k" := (bind m (fun _ => k))
  (at level 61, right associativity) : stmt_scope.

(** ** [internal/command/flag.go] *)

(** A value of Go's [error] interface built by [errors.New]; [nil] is
    [None] of [option error]. *)
Inductive error : Type :=
| errors_New (text : string).

Definition Error (e : error) : string :=
  match e with errors_New text => text end.

Definition nil : option error := None.

(** [append(s, v)] for one value. *)
Definition append (s : list string) (v : string) : list string :=
  (s ++ [v])%list.

Definition envFlag : Type := list string.
Definition targetArchFlag : Type := list string.
Definition tagsFlag : Type := list string.

Definition envFlag_Set (value : string) : envFlag -> envFlag * option error :=
  func (
    store [] ;;
    ef <- load ;;
    when (Nat.ltb 1 (List.length ef))
      (return_ (Some (errors_New "flag already set"))) ;;
    range (Split value ","%char) (fun v =>
      ef <- load ;;
      store (append ef v)) ;;
    (* validate env vars *)
    ef <- load ;;
    range ef (fun v =>
      let parts := Split v "="%char in
      when (negb (Nat.eqb (List.length parts) 2))
        (return_ (Some (errors_New
           "env var must defined as KEY=VALUE or KEY=")))) ;;
    return_ nil)%stmt.

Definition targetArchFlag_Set (value : string)
  : targetArchFlag -> targetArchFlag * option error :=
  func (
    store [] ;;
    af <- load ;;
    when (Nat.ltb 1 (List.length af))
      (return_ (Some (errors_New "flag already set"))) ;;
    range (Split value ","%char) (fun v =>
      af <- load ;;
      store (append af (TrimSpace v))) ;;
    return_ nil)%stmt.

Definition tagsFlag_Set (value : string)
  : tagsFlag -> tagsFlag * option error :=
  func (
    store [] ;;
    tf <- load ;;
    when (Nat.ltb 1 (List.length tf))
      (return_ (Some (errors_New "flag already set"))) ;;
    range (Split value ","%char) (fun v =>
      tf <- load ;;
      store (append tf (TrimSpace v))) ;;
    return_ nil)%stmt.

(** Calls of [Set] in a row on one [envFlag], from the left; [last] is the
    result of the call before. *)
Fixpoint envFlag_Sets (values : list string) (ef : envFlag)
  (last : option error) : envFlag * option error :=
  match values with
  | [] => (ef, last)
  | value :: values' =>
      let (ef', err) := envFlag_Set value ef in
      envFlag_Sets values' ef' err
  end.

(** The test of the validation loop of [envFlag.Set]:
    [len(strings.Split(v, "=")) != 2]. *)
Definition malformed (v : string) : bool :=
  negb (Nat.eqb (List.length (Split v "="%char)) 2).

(** The pieces up to and including the first malformed one, as the
    specification words what a failed [envFlag.Set] leaves behind. *)
Fixpoint upto_first_invalid (pieces : list string) : list string :=
  match pieces with
  | [] => []
  | p :: ps => if malformed p then [p] else p :: upto_first_invalid ps
  end.

(** A string with exactly one ['=']. *)
Definition one_equals (v : string) : Prop := Count v "="%char = 1.

(** ** The [String] methods

    [fmt.Sprint( *ef)] prints a value of a slice type whose method set has
    no [String] (the receiver of [String] is the pointer): the
    [reflect.Slice] case of [printValue] writes ['['], the elements with
    one space before each but the first, and [']'].  [i] is the index of
    the head of [l] in the slice. *)
Fixpoint printValue_elems (i : nat) (l : list string) : string :=
  match l with
  | [] => ""
  | v :: l' =>
      (if Nat.ltb 0 i then " " else "") ++ v ++ printValue_elems (S i) l'
  end.

Definition fmt_Sprint (l : list string) : string :=
  "[" ++ printValue_elems 0 l ++ "]".

Definition envFlag_String (ef : envFlag) : string := fmt_Sprint ef.
Definition targetArchFlag_String (af : targetArchFlag) : string :=
  fmt_Sprint af.
Definition tagsFlag_String (tf : tagsFlag) : string := fmt_Sprint tf.

(** [s] with every byte [old] replaced by [new], and the pieces of a list
    written one after the other with [sep] between them: what the
    properties of [Set] and [String] are stated with. *)
Fixpoint replace_byte (old new : ascii) (s : string) : string :=
  match s with
  | "" => ""
  | String c s' =>
      String (if Ascii.eqb c old then new else c) (replace_byte old new s')
  end.

Fixpoint join_bytes (sep : ascii) (l : list string) : string :=
  match l with
  | [] => ""
  | [v] => v
  | v :: l' => v ++ String sep (join_bytes sep l')
  end.

(** ** The host and [defaultOutput]

    [os.Getwd], the path rules of [path/filepath] and the three functions
    of [internal/volume] that [newCommonFlags] calls depend on the host:
    their results are the fields of a [Host]. *)
Record Host : Type := {
  os_Getwd : string * option error;
  volume_DefaultWorkDirHost : string * option error;
  volume_DefaultCacheDirHost : string * option error;
  volume_DefaultIconHost : string * option error;
  os_IsPathSeparator : ascii -> bool;
  filepath_VolumeName : string -> string
}.

(** A Unix host: the separator is ['/'] and no path has a volume name. *)
Definition unix (getwd workDir cacheDir icon : string * option error) : Host :=
  {| os_Getwd := getwd;
     volume_DefaultWorkDirHost := workDir;
     volume_DefaultCacheDirHost := cacheDir;
     volume_DefaultIconHost := icon;
     os_IsPathSeparator := fun c => Ascii.eqb c "/"%char;
     filepath_VolumeName := fun _ => "" |}.

(** [path[i]], for an index in range. *)
Definition char_at (path : string) (i : nat) : ascii :=
  match String.get i path with
  | Some c => c
  | None => Ascii.zero
  end.

(** The loop of [filepath.Split]: [i := len(path) - 1; for i >= len(vol)
    && !IsPathSeparator(path[i]) { i-- }].  [n] is [i + 1], and the result
    is the last [i + 1]. *)
Fixpoint filepath_Split_scan (h : Host) (path : string) (lenvol n : nat)
  : nat :=
  match n with
  | 0 => 0
  | S i =>
      if Nat.leb lenvol i && negb (os_IsPathSeparator h (char_at path i))
      then filepath_Split_scan h path lenvol i
      else n
  end.

(** [filepath.Split(path)]: [path[:i+1], path[i+1:]]. *)
Definition filepath_Split (h : Host) (path : string) : string * string :=
  let vol := filepath_VolumeName h path in
  let n := filepath_Split_scan h path (String.length vol)
             (String.length path) in
  (slice_to n path, slice_from n path).

(** [fmt.Errorf(format + "%s", err)] for a format with no other verb: an
    [errors.New] of the format followed by [err.Error()]. *)
Definition fmt_Errorf_s (format : string) (err : error) : error :=
  errors_New (format ++ Error err).

Definition defaultOutput (h : Host) : string * option error :=
  let (wd, err) := os_Getwd h in
  match err with
  | Some err =>
      ("", Some (fmt_Errorf_s "cannot get the path for current directory "
                   err))
  | None =>
      let (_, output) := filepath_Split h wd in
      (output, nil)
  end.

(** ** [CommonFlags] and the flag set *)

Record CommonFlags : Type := {
  AppID : string; CacheDir : string; DockerImage : string;
  Env : envFlag; Icon : string; Ldflags : string; Tags : tagsFlag;
  NoCache : bool; NoStripDebug : bool; Output : string; RootDir : string;
  Silent : bool; Debug : bool; Pull : bool
}.

(** [&CommonFlags{}]. *)
Definition CommonFlags_zero : CommonFlags :=
  {| AppID := ""; CacheDir := ""; DockerImage := ""; Env := []; Icon := "";
     Ldflags := ""; Tags := []; NoCache := false; NoStripDebug := false;
     Output := ""; RootDir := ""; Silent := false; Debug := false;
     Pull := false |}.

(** The pointers [&flags.X] handed to the flag set. *)
Inductive stringField : Type :=
| pAppID | pCacheDir | pDockerImage | pIcon | pLdflags | pOutput | pRootDir.

Inductive boolField : Type :=
| pNoCache | pNoStripDebug | pSilent | pDebug | pPull.

Definition load_string (p : stringField) (flags : CommonFlags) : string :=
  match p with
  | pAppID => AppID flags
  | pCacheDir => CacheDir flags
  | pDockerImage => DockerImage flags
  | pIcon => Icon flags
  | pLdflags => Ldflags flags
  | pOutput => Output flags
  | pRootDir => RootDir flags
  end.

Definition load_bool (p : boolField) (flags : CommonFlags) : bool :=
  match p with
  | pNoCache => NoCache flags
  | pNoStripDebug => NoStripDebug flags
  | pSilent => Silent flags
  | pDebug => Debug flags
  | pPull => Pull flags
  end.

Definition store_string (p : stringField) (v : string) (flags : CommonFlags)
  : CommonFlags :=
  {| AppID := match p with pAppID => v | _ => AppID flags end;
     CacheDir := match p with pCacheDir => v | _ => CacheDir flags end;
     DockerImage :=
       match p with pDockerImage => v | _ => DockerImage flags end;
     Env := Env flags;
     Icon := match p with pIcon => v | _ => Icon flags end;
     Ldflags := match p with pLdflags => v | _ => Ldflags flags end;
     Tags := Tags flags;
     NoCache := NoCache flags;
     NoStripDebug := NoStripDebug flags;
     Output := match p with pOutput => v | _ => Output flags end;
     RootDir := match p with pRootDir => v | _ => RootDir flags end;
     Silent := Silent flags; Debug := Debug flags; Pull := Pull flags |}.

Definition store_bool (p : boolField) (v : bool) (flags : CommonFlags)
  : CommonFlags :=
  {| AppID := AppID flags; CacheDir := CacheDir flags;
     DockerImage := DockerImage flags; Env := Env flags; Icon := Icon flags;
     Ldflags := Ldflags flags; Tags := Tags flags;
     NoCache := match p with pNoCache => v | _ => NoCache flags end;
     NoStripDebug :=
       match p with pNoStripDebug => v | _ => NoStripDebug flags end;
     Output := Output flags; RootDir := RootDir flags;
     Silent := match p with pSilent => v | _ => Silent flags end;
     Debug := match p with pDebug => v | _ => Debug flags end;
     Pull := match p with pPull => v | _ => Pull flags end |}.

(** The [flag.Value] of a flag: a [*stringValue] or a [*boolValue] of the
    package [flag] over a field, or the field [Env] or [Tags] itself. *)
Inductive flag_Value : Type :=
| stringValue (p : stringField)
| boolValue (p : boolField)
| envFlagValue
| tagsFlagValue.

(** [strconv.FormatBool]. *)
Definition strconv_FormatBool (b : bool) : string :=
  if b then "true" else "false".

(** [value.String()]. *)
Definition flag_Value_String (value : flag_Value) (flags : CommonFlags)
  : string :=
  match value with
  | stringValue p => load_string p flags
  | boolValue p => strconv_FormatBool (load_bool p flags)
  | envFlagValue => envFlag_String (Env flags)
  | tagsFlagValue => tagsFlag_String (Tags flags)
  end.

(** [flag.Flag] and the part of [flag.FlagSet] that declaring flags reads
    and writes: the name of the set, the map [formal] of the declared
    flags, latest first, and the map [undef] of the names that were set
    before being declared, with where. *)
Record Flag : Type := {
  Name : string; Usage : string; Value : flag_Value; DefValue : string
}.

Record FlagSet : Type := {
  name : string;
  formal : list Flag;
  undef : list (string * string)
}.

(** [f.name], where a parameter is called [name] too. *)
Definition FlagSet_name (f : FlagSet) : string := name f.

(** [flag.NewFlagSet(name, errorHandling)]. *)
Definition flag_NewFlagSet (name : string) : FlagSet :=
  {| name := name; formal := []; undef := [] |}.

(** [f.formal[name]] with its presence, and [f.undef[name]], which is
    [""] for a missing key. *)
Fixpoint formal_at (l : list Flag) (name : string) : option Flag :=
  match l with
  | [] => None
  | flag :: l' =>
      if String.eqb (Name flag) name then Some flag else formal_at l' name
  end.

Fixpoint undef_at (l : list (string * string)) (name : string) : string :=
  match l with
  | [] => ""
  | (k, pos) :: l' => if String.eqb k name then pos else undef_at l' name
  end.

(** What [FlagSet.Var] panics with, by message: [flag %q begins with -],
    [flag %q contains =], [%s flag redefined: %s] (set name, flag name) and
    [flag %s set at %s before being defined]. *)
Inductive panicValue : Type :=
| flag_begins_with_dash (name : string)
| flag_contains_equals (name : string)
| flag_redefined (set_name flag_name : string)
| flag_set_before_defined (name pos : string).

Inductive outcome (A : Type) : Type :=
| Done (a : A)
| Panic (p : panicValue).

Arguments Done {A} a.
Arguments Panic {A} p.

(** [strings.HasPrefix(s, "-")] and [strings.Contains(s, "=")]. *)
Definition strings_HasPrefix (s pre : string) : bool := String.prefix pre s.

Definition strings_Contains_byte (s : string) (c : ascii) : bool :=
  match Index s c with
  | Some _ => true
  | None => false
  end.

(** [f.Var(value, name, usage)]; [flags] is the struct the value points
    into, which [value.String()] reads for the default. *)
Definition FlagSet_Var (f : FlagSet) (flags : CommonFlags)
  (value : flag_Value) (name usage : string) : outcome FlagSet :=
  if strings_HasPrefix name "-" then Panic (flag_begins_with_dash name)
  else if strings_Contains_byte name "="%char
  then Panic (flag_contains_equals name)
  else
    let flag := {| Name := name; Usage := usage; Value := value;
                   DefValue := flag_Value_String value flags |} in
    match formal_at (formal f) name with
    | Some _ => Panic (flag_redefined (FlagSet_name f) name)
    | None =>
        if negb (String.eqb (undef_at (undef f) name) "")
        then Panic (flag_set_before_defined name (undef_at (undef f) name))
        else Done {| name := FlagSet_name f; formal := flag :: formal f;
                     undef := undef f |}
    end.

(** ** [newCommonFlags] *)

(** A declaration acts on the struct [flags] and on the flag set, or
    panics. *)
Definition decl : Type :=
  CommonFlags * FlagSet -> outcome (CommonFlags * FlagSet).

Definition decl_seq (d1 d2 : decl) : decl :=
  fun st =>
    match d1 st with
    | Done st' => d2 st'
    | Panic v => Panic v
    end.

Declare Scope decl_scope.
Delimit Scope decl_scope with decl.
Notation "d1 ;; d2" := (decl_seq d1 d2)
  (at level 61, right associativity) : decl_scope.

(** [f.StringVar(p, name, value, usage)]: [newStringValue] stores the
    default in [*p], then [f.Var]. *)
Definition FlagSet_StringVar (p : stringField) (name value usage : string)
  : decl :=
  fun st =>
    let flags := store_string p value (fst st) in
    match FlagSet_Var (snd st) flags (stringValue p) name usage with
    | Done f => Done (flags, f)
    | Panic v => Panic v
    end.

(** [f.BoolVar(p, name, value, usage)]. *)
Definition FlagSet_BoolVar (p : boolField) (name : string) (value : bool)
  (usage : string) : decl :=
  fun st =>
    let flags := store_bool p value (fst st) in
    match FlagSet_Var (snd st) flags (boolValue p) name usage with
    | Done f => Done (flags, f)
    | Panic v => Panic v
    end.

(** [f.Var(&flags.Env, name, usage)] and [f.Var(&flags.Tags, name, usage)]. *)
Definition FlagSet_Var_of (value : flag_Value) (name usage : string) : decl :=
  fun st =>
    match FlagSet_Var (snd st) (fst st) value name usage with
    | Done f => Done (fst st, f)
    | Panic v => Panic v
    end.

(** The value the package variable [flagSet] starts with. *)
Definition flagSet : FlagSet := flag_NewFlagSet "fyne-cross".

(** [newCommonFlags()] on the host [h], with the package variable
    [flagSet] before the call: the variable after the call and the two
    results, [None] for a nil pointer. *)
Definition newCommonFlags (h : Host) (flagSet : FlagSet)
  : outcome (FlagSet * (option CommonFlags * option error)) :=
  let (output, err) := defaultOutput h in
  match err with
  | Some err => Done (flagSet, (None, Some err))
  | None =>
  let (rootDir, err) := volume_DefaultWorkDirHost h in
  match err with
  | Some err => Done (flagSet, (None, Some err))
  | None =>
  let (cacheDir, err) := volume_DefaultCacheDirHost h in
  match err with
  | Some err => Done (flagSet, (None, Some err))
  | None =>
  let (defaultIcon, err) := volume_DefaultIconHost h in
  match err with
  | Some err => Done (flagSet, (None, Some err))
  | None =>
  match
    (FlagSet_StringVar pAppID "app-id" output
       "Application ID used for distribution" ;;
     FlagSet_StringVar pCacheDir "cache" cacheDir
       "Directory used to share/cache sources and dependencies" ;;
     FlagSet_BoolVar pNoCache "no-cache" false
       "Do not use the go build cache" ;;
     FlagSet_Var_of envFlagValue "env"
       "List of additional env variables specified as KEY=VALUE and separated by comma" ;;
     FlagSet_StringVar pIcon "icon" defaultIcon
       "Application icon used for distribution" ;;
     FlagSet_StringVar pDockerImage "image" ""
       "Custom docker image to use for build" ;;
     FlagSet_StringVar pLdflags "ldflags" ""
       "Additional flags to pass to the external linker" ;;
     FlagSet_Var_of tagsFlagValue "tags"
       "List of additional build tags separated by comma" ;;
     FlagSet_BoolVar pNoStripDebug "no-strip-debug" false
       "Do not strip debug information from binaries" ;;
     FlagSet_StringVar pOutput "output" output "Named output file" ;;
     FlagSet_StringVar pRootDir "dir" rootDir "Fyne app root directory" ;;
     FlagSet_BoolVar pSilent "silent" false "Silent mode" ;;
     FlagSet_BoolVar pDebug "debug" false "Debug mode" ;;
     FlagSet_BoolVar pPull "pull" false
       "Attempt to pull a newer version of the docker image")%decl
      (CommonFlags_zero, flagSet)
  with
  | Done (flags, flagSet') => Done (flagSet', (Some flags, nil))
  | Panic v => Panic v
  end
  end end end end.

(** The names [newCommonFlags] declares, in the order of the calls. *)
Definition declared_names : list string :=
  ["app-id"; "cache"; "no-cache"; "env"; "icon"; "image"; "ldflags"; "tags";
   "no-strip-debug"; "output"; "dir"; "silent"; "debug"; "pull"].

(** A name [f.Var] accepts: not in [formal], not in [undef]. *)
Definition fresh (f : FlagSet) (name : string) : bool :=
  match formal_at (formal f) name with
  | Some _ => false
  | None => String.eqb (undef_at (undef f) name) ""
  end.

(** The panics of [f.Var] on a name that is taken. *)
Definition name_taken (f : FlagSet) (p : panicValue) : Prop :=
  exists name,
    In name declared_names /\
    (p = flag_redefined (FlagSet_name f) name \/
     (undef_at (undef f) name <> "" /\
      p = flag_set_before_defined name (undef_at (undef f) name))).

(** [t] is a run of consecutive bytes of [s]; [t] is the start of [s]. *)
Definition part_of (t s : string) : Prop :=
  exists pre post, s = pre ++ t ++ post.

Definition starts (s t : string) : Prop := exists post, s = t ++ post.

(** The first and the last byte of [s] is one of the six ASCII white
    bytes (tab, line feed, vertical tab, form feed, carriage return,
    space). *)
Definition head_white (s : string) : bool :=
  match s with
  | "" => false
  | String c _ => asciiSpace (byte c)
  end.

Definition last_white (s : string) : bool :=
  match rev (list_ascii_of_string s) with
  | [] => false
  | c :: _ => asciiSpace (byte c)
  end.

(** A white run: the UTF-8 encodings of white space runes, one after the
    other.  [e] is the whole encoding of the rune [r] when
    [DecodeRuneInString] reads [r] from [e] with the width of [e]. *)
Inductive white_run : string -> Prop :=
| white_run_nil : white_run ""
| white_run_rune (e s : string) (r : N) :
    e <> "" ->
    DecodeRuneInString e = (r, String.length e) ->
    IsSpace r = true ->
    white_run s ->
    white_run (e ++ s).

(** [v] is [p] with the white space around it taken away: [p] is a white
    run, then [v], then a white run, and [v] neither begins nor ends with
    a white space rune. *)
Definition trimmed (p v : string) : Prop :=
  exists pre post,
    p = pre ++ v ++ post /\ white_run pre /\ white_run post /\
    IsSpace (fst (DecodeRuneInString v)) = false /\
    IsSpace (fst (DecodeLastRuneInString v)) = false.

(** The UTF-8 bytes of three runes: the white space runes U+00A0
    (no-break space) and U+3000 (ideographic space), and the letter
    U+00E9 (e with acute accent). *)
Definition no_break_space : string :=
  String (ascii_of_nat 194) (String (ascii_of_nat 160) "").

Definition ideographic_space : string :=
  String (ascii_of_nat 227)
         (String (ascii_of_nat 128) (String (ascii_of_nat 128) "")).

Definition e_acute : string :=
  String (ascii_of_nat 195) (String (ascii_of_nat 169) "").

(** Strings of ASCII bytes only, and what trimming surrounding whitespace
    means on them: the white bytes at the front are dropped, then those at
    the back. *)
Definition isASCII (l : list ascii) : bool :=
  forallb (fun c => (byte c <? RuneSelf)%N) l.

Fixpoint skip_space (l : list ascii) : list ascii :=
  match l with
  | [] => []
  | c :: l' => if asciiSpace (byte c) then skip_space l' else l
  end.

Definition trim_ascii (s : string) : string :=
  string_of_list_ascii
    (rev (skip_space (rev (skip_space (list_ascii_of_string s))))).

(** ** Equations of [Split] *)

Lemma Split_empty (sep : ascii) : Split "" sep = [""].
Proof. reflexivity. Qed.

Lemma Split_sep (sep : ascii) (s : string) :
  Split (String sep s) sep = "" :: Split s sep.
Proof.
  unfold Split. cbn [Count]. rewrite Ascii.eqb_refl.
  cbn [Nat.add genSplit_loop Index]. rewrite Ascii.eqb_refl. reflexivity.
Qed.

Lemma Split_other (c sep : ascii) (s : string) :
  Ascii.eqb c sep = false ->
  Split (String c s) sep =
  match Split s sep with
  | p :: ps => String c p :: ps
  | [] => [String c ""]
  end.
Proof.
  intros Hc. unfold Split. cbn [Count]. rewrite Hc. cbn [Nat.add].
  destruct (Count s sep) as [|n]; cbn [genSplit_loop Index]; rewrite ?Hc.
  - reflexivity.
  - destruct (Index s sep) as [m|]; reflexivity.
Qed.

Lemma Split_not_nil (s : string) (sep : ascii) : Split s sep <> [].
Proof.
  unfold Split. destruct (Count s sep); simpl.
  - discriminate.
  - destruct (Index s sep); discriminate.
Qed.

Lemma Split_length (s : string) (sep : ascii) :
  List.length (Split s sep) = S (Count s sep).
Proof.
  induction s as [|c s IH].
  - reflexivity.
  - destruct (Ascii.eqb c sep) eqn:Hc.
    + apply Ascii.eqb_eq in Hc. subst c. rewrite Split_sep. simpl.
      rewrite Ascii.eqb_refl, IH. reflexivity.
    + rewrite (Split_other _ _ _ Hc). simpl. rewrite Hc.
      destruct (Split s sep) as [|p ps] eqn:Hs.
      * exfalso. exact (Split_not_nil _ _ Hs).
      * simpl in *. exact IH.
Qed.

Lemma Split_trailing_sep (s : string) (sep : ascii) :
  Split (s ++ String sep "") sep = (Split s sep ++ [""])%list.
Proof.
  induction s as [|c s IH].
  - simpl. rewrite Split_sep. reflexivity.
  - simpl. destruct (Ascii.eqb c sep) eqn:Hc.
    + apply Ascii.eqb_eq in Hc. subst c. rewrite !Split_sep, IH. reflexivity.
    + rewrite !(Split_other _ _ _ Hc), IH.
      destruct (Split s sep) as [|p ps] eqn:Hs.
      * exfalso. exact (Split_not_nil _ _ Hs).
      * reflexivity.
Qed.


(** ** [TrimSpace] on ASCII strings *)

Lemma TrimSpace_stop_ascii (rs : list ascii) :
  isASCII rs = true ->
  TrimSpace_stop rs = string_of_list_ascii (rev (skip_space rs)).
Proof.
  induction rs as [|c rs IH]; intros Hrs.
  - reflexivity.
  - cbn [isASCII forallb] in Hrs. apply andb_true_iff in Hrs.
    destruct Hrs as [Hc Hrs].
    cbn [TrimSpace_stop skip_space].
    apply N.ltb_lt in Hc. apply N.leb_gt in Hc. rewrite Hc.
    destruct (asciiSpace (byte c)).
    + apply IH. exact Hrs.
    + reflexivity.
Qed.

Lemma isASCII_rev (l : list ascii) : isASCII l = true -> isASCII (rev l) = true.
Proof.
  unfold isASCII. rewrite !forallb_forall. intros H c Hin.
  apply H. apply in_rev. exact Hin.
Qed.

(** On a string of ASCII bytes [TrimSpace] drops the white bytes at both
    ends and nothing else. *)
Lemma TrimSpace_ascii (s : string) :
  isASCII (list_ascii_of_string s) = true -> TrimSpace s = trim_ascii s.
Proof.
  induction s as [|c s IH]; intros Hs.
  - reflexivity.
  - cbn [list_ascii_of_string] in Hs. pose proof Hs as Hall.
    cbn [isASCII forallb] in Hs. apply andb_true_iff in Hs.
    destruct Hs as [Hc Hs].
    unfold trim_ascii. cbn [TrimSpace list_ascii_of_string skip_space].
    apply N.ltb_lt in Hc. apply N.leb_gt in Hc. rewrite Hc.
    destruct (asciiSpace (byte c)).
    + apply IH. exact Hs.
    + apply TrimSpace_stop_ascii.
      apply (isASCII_rev (c :: list_ascii_of_string s)). exact Hall.
Qed.

(** A no-break space (U+00A0) and an ideographic space (U+3000) around a
    word are trimmed through the fallback to [TrimFunc]; a stray
    continuation byte is not white space and stays. *)
Example TrimSpace_unicode :
  TrimSpace (String (ascii_of_nat 194) (String (ascii_of_nat 160)
    (" foo " ++ String (ascii_of_nat 227) (String (ascii_of_nat 128)
      (String (ascii_of_nat 128) " ")))))
  = "foo".
Proof. vm_compute. reflexivity. Qed.

Example TrimSpace_invalid_byte :
  TrimSpace (" " ++ String (ascii_of_nat 160) " x ")
  = String (ascii_of_nat 160) " x".
Proof. vm_compute. reflexivity. Qed.

(** ** Loops of the [Set] methods *)

Section Loops.

Context {R : Type}.

(** The loop [for _, v := range l { *p = append( *p, g(v)) }] appends the
    images of the pieces in order and never returns. *)
Lemma range_append (g : string -> string) (l acc : list string) :
  range (R := R) l (fun v => ef <- load ;; store (append ef (g v)))%stmt acc
  = ((acc ++ map g l)%list, Next tt).
Proof.
  revert acc. induction l as [|v l IH]; intros acc.
  - cbn. rewrite app_nil_r. reflexivity.
  - cbn [range map]. unfold bind at 1. cbn. rewrite IH.
    unfold append. rewrite <- app_assoc. reflexivity.
Qed.

(** A loop whose body is [if bad(v) { return r }] leaves the receiver as
    it is and returns at the first [v] with [bad(v)]. *)
Lemma range_guard (bad : string -> bool) (r : R) (l s : list string) :
  range l (fun v => when (bad v) (return_ r)) s
  = (s, if existsb bad l then Returned r else Next tt).
Proof.
  induction l as [|v l IH].
  - reflexivity.
  - cbn [range existsb]. unfold bind. destruct (bad v); cbn.
    + reflexivity.
    + exact IH.
Qed.

End Loops.

(** ** What the three [Set] methods compute *)

Lemma envFlag_Set_eq (value : string) (ef : envFlag) :
  envFlag_Set value ef =
  (Split value ","%char,
   if existsb malformed (Split value ","%char)
   then Some (errors_New "env var must defined as KEY=VALUE or KEY=")
   else nil).
Proof.
  unfold envFlag_Set, func.
  unfold bind at 1. cbn [store]. unfold bind at 1. cbn [load].
  unfold bind at 1. cbn [List.length Nat.ltb Nat.leb when ret].
  unfold bind at 1.
  rewrite (range_append (fun v => v)). rewrite map_id. cbn [app].
  unfold bind at 1. cbn [load]. unfold bind at 1.
  change (fun v : string =>
            let parts := Split v "="%char in
            when (negb (Nat.eqb (List.length parts) 2))
              (return_ (Some (errors_New
                 "env var must defined as KEY=VALUE or KEY="))))
    with (fun v : string =>
            when (S := list string) (malformed v)
              (return_ (Some (errors_New
                 "env var must defined as KEY=VALUE or KEY=")))).
  rewrite range_guard. unfold malformed.
  destruct (existsb _ (Split value ","%char)); reflexivity.
Qed.

Lemma targetArchFlag_Set_eq (value : string) (af : targetArchFlag) :
  targetArchFlag_Set value af = (map TrimSpace (Split value ","%char), nil).
Proof.
  unfold targetArchFlag_Set, func.
  unfold bind at 1. cbn [store]. unfold bind at 1. cbn [load].
  unfold bind at 1. cbn [List.length Nat.ltb Nat.leb when ret].
  unfold bind at 1. rewrite (range_append TrimSpace). reflexivity.
Qed.

Lemma tagsFlag_Set_eq (value : string) (tf : tagsFlag) :
  tagsFlag_Set value tf = (map TrimSpace (Split value ","%char), nil).
Proof.
  unfold tagsFlag_Set, func.
  unfold bind at 1. cbn [store]. unfold bind at 1. cbn [load].
  unfold bind at 1. cbn [List.length Nat.ltb Nat.leb when ret].
  unfold bind at 1. rewrite (range_append TrimSpace). reflexivity.
Qed.

(** ** Validation of the env entries *)

Lemma malformed_false_one_equals (v : string) :
  malformed v = false <-> one_equals v.
Proof.
  unfold malformed, one_equals. rewrite Split_length.
  rewrite negb_false_iff, Nat.eqb_eq. lia.
Qed.

Lemma malformed_true_iff (v : string) :
  malformed v = true <-> List.length (Split v "="%char) <> 2.
Proof.
  unfold malformed. rewrite negb_true_iff. apply Nat.eqb_neq.
Qed.

Lemma all_wellformed_one_equals (l : list string) :
  existsb malformed l = false -> Forall one_equals l.
Proof.
  induction l as [|v l IH]; cbn [existsb]; intros H.
  - constructor.
  - apply orb_false_iff in H. destruct H as [Hv Hl]. constructor.
    + apply malformed_false_one_equals. exact Hv.
    + apply IH. exact Hl.
Qed.

Lemma upto_first_invalid_prefix (l : list string) :
  exists rest, l = (upto_first_invalid l ++ rest)%list.
Proof.
  induction l as [|p ps [rest IH]]; cbn [upto_first_invalid].
  - exists []. reflexivity.
  - destruct (malformed p).
    + exists ps. reflexivity.
    + exists rest. cbn. rewrite <- IH. reflexivity.
Qed.

Lemma upto_first_invalid_last (l : list string) :
  existsb malformed l = true ->
  malformed (List.last (upto_first_invalid l) "") = true.
Proof.
  induction l as [|p ps IH]; cbn [existsb upto_first_invalid]; intros H.
  - discriminate.
  - destruct (malformed p) eqn:Hp.
    + exact Hp.
    + cbn [orb] in H. specialize (IH H).
      destruct (upto_first_invalid ps) as [|q qs] eqn:Hq.
      * destruct ps as [|q qs]; [discriminate H|].
        cbn [upto_first_invalid] in Hq. destruct (malformed q); discriminate.
      * exact IH.
Qed.

Lemma envFlag_Set_error_iff (value : string) (ef : envFlag) :
  snd (envFlag_Set value ef) <> nil <->
  existsb malformed (Split value ","%char) = true.
Proof.
  rewrite envFlag_Set_eq. cbn [snd].
  destruct (existsb malformed (Split value ","%char)); unfold nil; split;
    congruence.
Qed.

(** ** The claims *)

(** C1.  The specification has [Set] reject a call when the destination
    already holds more than one element.  The methods contain that test
    and the error "flag already set", but only after the destination has
    been replaced by the empty slice: a call on a destination of two
    elements, such as the one a first call with a two-element value
    leaves, is accepted by all three variants. *)
Theorem Set_on_two_elements_is_accepted :
  envFlag_Set "a=1,b=2" [] = (["a=1"; "b=2"], nil) /\
  envFlag_Set "c=3" ["a=1"; "b=2"] = (["c=3"], nil) /\
  targetArchFlag_Set "amd64,386" [] = (["amd64"; "386"], nil) /\
  targetArchFlag_Set "arm" ["amd64"; "386"] = (["arm"], nil) /\
  tagsFlag_Set "x,y" [] = (["x"; "y"], nil) /\
  tagsFlag_Set "z" ["x"; "y"] = (["z"], nil).
Proof.
  repeat apply conj; vm_compute; reflexivity.
Qed.

(** C2.  For each of the three variants the destination and the error
    after [Set] depend on the raw argument only, not on what the
    destination held before, and the error "flag already set" is never
    returned. *)
Theorem Set_ignores_prior_destination :
  (forall value ef1 ef2, envFlag_Set value ef1 = envFlag_Set value ef2) /\
  (forall value af1 af2,
      targetArchFlag_Set value af1 = targetArchFlag_Set value af2) /\
  (forall value tf1 tf2, tagsFlag_Set value tf1 = tagsFlag_Set value tf2) /\
  (forall value ef,
      snd (envFlag_Set value ef) <> Some (errors_New "flag already set")) /\
  (forall value af,
      snd (targetArchFlag_Set value af)
      <> Some (errors_New "flag already set")) /\
  (forall value tf,
      snd (tagsFlag_Set value tf) <> Some (errors_New "flag already set")).
Proof.
  repeat apply conj; intros.
  - rewrite !envFlag_Set_eq. reflexivity.
  - rewrite !targetArchFlag_Set_eq. reflexivity.
  - rewrite !tagsFlag_Set_eq. reflexivity.
  - rewrite envFlag_Set_eq. cbn [snd].
    destruct (existsb malformed _); discriminate.
  - rewrite targetArchFlag_Set_eq. discriminate.
  - rewrite tagsFlag_Set_eq. discriminate.
Qed.

(** C3, as stated, fails: after [Set("a,b=1")] has failed on its first
    piece, the env destination also holds the later piece ["b=1"], so it
    is not the list of the pieces up to and including the first invalid
    one. *)
Lemma failed_env_Set_keeps_later_pieces :
  snd (envFlag_Set "a,b=1" []) <> nil /\
  fst (envFlag_Set "a,b=1" []) = ["a"; "b=1"] /\
  upto_first_invalid (Split "a,b=1" ","%char) = ["a"] /\
  fst (envFlag_Set "a,b=1" [])
  <> upto_first_invalid (Split "a,b=1" ","%char).
Proof.
  repeat apply conj; vm_compute; try reflexivity; discriminate.
Qed.

(** C3, amended.  When the env variant's [Set] fails validation, the
    destination holds all the comma-split pieces of the raw argument, in
    order: the pieces up to and including the first invalid one, followed
    by every later piece.  It is not empty, and it is this list whatever
    the destination held before the call. *)
Theorem failed_env_Set_leaves_all_pieces (value : string) (ef : envFlag) :
  snd (envFlag_Set value ef) <> nil ->
  fst (envFlag_Set value ef) = Split value ","%char /\
  (exists rest,
      fst (envFlag_Set value ef)
      = (upto_first_invalid (Split value ","%char) ++ rest)%list) /\
  malformed (List.last (upto_first_invalid (Split value ","%char)) "") = true /\
  fst (envFlag_Set value ef) <> [].
Proof.
  intros Herr. apply envFlag_Set_error_iff in Herr.
  rewrite envFlag_Set_eq. cbn [fst]. repeat apply conj.
  - reflexivity.
  - apply upto_first_invalid_prefix.
  - apply upto_first_invalid_last. exact Herr.
  - apply Split_not_nil.
Qed.

Lemma failed_env_Set_leaves_all_pieces_witness :
  snd (envFlag_Set "a=1,b" ["x"]) <> nil /\
  fst (envFlag_Set "a=1,b" ["x"]) = Split "a=1,b" ","%char.
Proof.
  assert (H : snd (envFlag_Set "a=1,b" ["x"]) <> nil)
    by (vm_compute; discriminate).
  split; [exact H|].
  exact (proj1 (failed_env_Set_leaves_all_pieces "a=1,b" ["x"] H)).
Defined.

(** C4, as stated, fails: after the failed call [Set("a=1,b")] the env
    destination holds ["b"], which has no ['=']. *)
Lemma failed_env_Set_breaks_one_equals :
  fst (envFlag_Sets ["a=1,b"] [] nil) = ["a=1"; "b"] /\
  ~ Forall one_equals (fst (envFlag_Sets ["a=1,b"] [] nil)).
Proof.
  split; [reflexivity|].
  intros H. vm_compute in H.
  inversion H as [|? ? _ H2]. inversion H2 as [|? ? H3 _].
  discriminate H3.
Qed.

Lemma envFlag_Sets_one_equals (values : list string) :
  forall (ef : envFlag) (last : option error),
    (last = nil -> Forall one_equals ef) ->
    snd (envFlag_Sets values ef last) = nil ->
    Forall one_equals (fst (envFlag_Sets values ef last)).
Proof.
  induction values as [|value values IH]; intros ef last Hinv Hlast.
  - cbn in *. auto.
  - cbn [envFlag_Sets] in *. rewrite envFlag_Set_eq in *.
    apply IH; [|exact Hlast].
    destruct (existsb malformed (Split value ","%char)) eqn:Hm.
    + discriminate.
    + intros _. apply all_wellformed_one_equals. exact Hm.
Qed.

(** C4, amended.  After any sequence of [Set] calls on an env destination
    that starts empty, if the last call returned no error (or no call was
    made), every element of the destination has exactly one ['=']. *)
Theorem env_one_equals_after_successful_Set (values : list string) :
  snd (envFlag_Sets values [] nil) = nil ->
  Forall one_equals (fst (envFlag_Sets values [] nil)).
Proof.
  apply envFlag_Sets_one_equals. intros _. constructor.
Qed.

Lemma env_one_equals_after_successful_Set_witness :
  snd (envFlag_Sets ["a=1,b"; "a=1,b="] [] nil) = nil /\
  Forall one_equals (fst (envFlag_Sets ["a=1,b"; "a=1,b="] [] nil)).
Proof.
  split; [reflexivity|].
  apply (env_one_equals_after_successful_Set ["a=1,b"; "a=1,b="]).
  reflexivity.
Defined.

(** C5.  The env variant's [Set] returns an error exactly when some
    comma-split piece of the raw argument does not split on ['='] into two
    parts.  ["FOO="] is accepted; ["FOO=BAR=BAZ"] (three parts) and
    ["FOO"] (one part) are rejected. *)
Theorem env_Set_fails_iff_some_piece_malformed :
  (forall value ef,
      snd (envFlag_Set value ef) <> nil <->
      Exists (fun v => List.length (Split v "="%char) <> 2)
             (Split value ","%char)) /\
  (forall ef, snd (envFlag_Set "FOO=" ef) = nil) /\
  Split "FOO=" "="%char = ["FOO"; ""] /\
  (forall ef, snd (envFlag_Set "FOO=BAR=BAZ" ef) <> nil) /\
  Split "FOO=BAR=BAZ" "="%char = ["FOO"; "BAR"; "BAZ"] /\
  (forall ef, snd (envFlag_Set "FOO" ef) <> nil).
Proof.
  split; [|repeat apply conj; intros; try rewrite envFlag_Set_eq;
            vm_compute; congruence].
  intros value ef. rewrite envFlag_Set_error_iff.
  rewrite existsb_exists, Exists_exists.
  split; intros [v [Hin Hv]]; exists v; split; trivial;
    apply malformed_true_iff; exact Hv.
Qed.

(** C7.  The specification has the error of a failed env [Set] carry
    the text "env var must be defined as KEY=VALUE or KEY=".  The literal
    in the code lacks the word "be": [Set("b")] returns the error "env
    var must defined as KEY=VALUE or KEY=", which is another text. *)
Lemma env_error_text_has_no_be :
  snd (envFlag_Set "b" [])
  = Some (errors_New "env var must defined as KEY=VALUE or KEY=") /\
  Error (errors_New "env var must defined as KEY=VALUE or KEY=")
  <> "env var must be defined as KEY=VALUE or KEY=".
Proof.
  split; [reflexivity | discriminate].
Qed.

(** Whatever the raw argument, an error of the env variant's [Set]
    carries the text of that literal, "env var must defined as
    KEY=VALUE or KEY=", which ends with the expected shape "KEY=VALUE or
    KEY=". *)
Theorem env_error_text (value : string) (ef : envFlag) (e : error) :
  snd (envFlag_Set value ef) = Some e ->
  Error e = "env var must defined as KEY=VALUE or KEY=" /\
  exists pre, Error e = pre ++ "KEY=VALUE or KEY=".
Proof.
  rewrite envFlag_Set_eq. cbn [snd].
  destruct (existsb malformed _); [|discriminate].
  intros H. injection H as <-. split; [reflexivity|].
  exists "env var must defined as ". reflexivity.
Qed.

Lemma env_error_text_witness :
  snd (envFlag_Set "FOO=BAR=BAZ" [])
  = Some (errors_New "env var must defined as KEY=VALUE or KEY=") /\
  Error (errors_New "env var must defined as KEY=VALUE or KEY=")
  = "env var must defined as KEY=VALUE or KEY=".
Proof.
  split; [reflexivity|].
  exact (proj1 (env_error_text "FOO=BAR=BAZ" [] _ eq_refl)).
Defined.

(** C8.  [Set("a=1,b=2")] on an env flag returns no error and leaves the
    destination holding [["a=1"; "b=2"]], whatever it held before. *)
Theorem env_Set_two_assignments (ef : envFlag) :
  envFlag_Set "a=1,b=2" ef = (["a=1"; "b=2"], nil).
Proof.
  rewrite envFlag_Set_eq. reflexivity.
Qed.

(** C9.  [Set("")] on a tags flag returns no error and leaves the
    destination holding the one element [""]; the empty string splits into
    one empty piece, and a raw argument that ends with the separator gets a
    last piece that is empty. *)
Theorem tags_Set_empty_string :
  (forall tf, tagsFlag_Set "" tf = ([""], nil)) /\
  (forall sep, Split "" sep = [""]) /\
  (forall s sep, Split (s ++ String sep "") sep = (Split s sep ++ [""])%list) /\
  (forall value tf,
      fst (tagsFlag_Set (value ++ ",") tf)
      = (fst (tagsFlag_Set value tf) ++ [""])%list).
Proof.
  repeat apply conj; intros.
  - rewrite tagsFlag_Set_eq. reflexivity.
  - reflexivity.
  - apply Split_trailing_sep.
  - rewrite !tagsFlag_Set_eq. cbn [fst].
    rewrite Split_trailing_sep, map_app. reflexivity.
Qed.

(** C10.  The architecture and tags variants' [Set] returns [nil] for
    every raw argument and every prior destination. *)
Theorem arch_and_tags_Set_never_fail :
  (forall value af, snd (targetArchFlag_Set value af) = nil) /\
  (forall value tf, snd (tagsFlag_Set value tf) = nil).
Proof.
  split; intros.
  - rewrite targetArchFlag_Set_eq. reflexivity.
  - rewrite tagsFlag_Set_eq. reflexivity.
Qed.

(** ** Further properties of the [Set] methods *)

Lemma string_app_assoc (a b c : string) : (a ++ b) ++ c = a ++ (b ++ c).
Proof.
  induction a as [|x a IH]; cbn; [reflexivity | rewrite IH; reflexivity].
Qed.

Lemma string_app_nil_r (a : string) : a ++ "" = a.
Proof.
  induction a as [|x a IH]; cbn; [reflexivity | rewrite IH; reflexivity].
Qed.

Lemma Count_app (a b : string) (c : ascii) :
  Count (a ++ b) c = Count a c + Count b c.
Proof.
  induction a as [|x a IH]; cbn; [reflexivity | rewrite IH; lia].
Qed.

(** Joining the pieces of [Split] with the separator gives the string
    back. *)
Lemma join_Split (s : string) (sep : ascii) :
  join_bytes sep (Split s sep) = s.
Proof.
  induction s as [|c s IH].
  - reflexivity.
  - destruct (Ascii.eqb c sep) eqn:Hc.
    + apply Ascii.eqb_eq in Hc. subst c. rewrite Split_sep.
      destruct (Split s sep) as [|p ps] eqn:Hs.
      * exfalso. exact (Split_not_nil _ _ Hs).
      * cbn [join_bytes]. cbn [join_bytes] in IH. cbn. rewrite IH.
        reflexivity.
    + rewrite (Split_other _ _ _ Hc).
      destruct (Split s sep) as [|p ps] eqn:Hs.
      * exfalso. exact (Split_not_nil _ _ Hs).
      * destruct ps as [|q qs]; cbn [join_bytes] in *.
        -- rewrite IH. reflexivity.
        -- cbn. rewrite IH. reflexivity.
Qed.

(** No piece of [Split] holds the separator. *)
Lemma Split_pieces_no_sep (s : string) (sep : ascii) :
  Forall (fun p => Count p sep = 0) (Split s sep).
Proof.
  induction s as [|c s IH].
  - repeat constructor.
  - destruct (Ascii.eqb c sep) eqn:Hc.
    + apply Ascii.eqb_eq in Hc. subst c. rewrite Split_sep.
      constructor; [reflexivity | exact IH].
    + rewrite (Split_other _ _ _ Hc).
      destruct (Split s sep) as [|p ps] eqn:Hs.
      * exfalso. exact (Split_not_nil _ _ Hs).
      * inversion IH as [|? ? Hp Hps]; subst. constructor; [|exact Hps].
        cbn. rewrite Hc, Hp. reflexivity.
Qed.

(** A byte other than the separator occurs in the pieces as often as in
    the string. *)
Lemma Count_Split_other (s : string) (sep c : ascii) :
  Ascii.eqb sep c = false ->
  list_sum (map (fun p => Count p c) (Split s sep)) = Count s c.
Proof.
  intros Hsc. induction s as [|x s IH].
  - reflexivity.
  - destruct (Ascii.eqb x sep) eqn:Hx.
    + apply Ascii.eqb_eq in Hx. subst x. rewrite Split_sep.
      unfold list_sum in *. cbn [map fold_right]. rewrite IH.
      cbn. rewrite Hsc. reflexivity.
    + rewrite (Split_other _ _ _ Hx).
      destruct (Split s sep) as [|p ps] eqn:Hs.
      * exfalso. exact (Split_not_nil _ _ Hs).
      * cbn in *. lia.
Qed.

Lemma list_sum_all_one (l : list string) (c : ascii) :
  Forall (fun p => Count p c = 1) l ->
  list_sum (map (fun p => Count p c) l) = List.length l.
Proof.
  induction 1 as [|p l Hp _ IH]; [reflexivity|].
  unfold list_sum in *. cbn [map fold_right List.length].
  rewrite Hp, IH. reflexivity.
Qed.

(** X1.  After [Set], whether it failed or not, the destination of each
    of the three variants has one element more than the raw argument has
    commas; it is never empty. *)
Theorem Set_number_of_elements (value : string) (prior : list string) :
  List.length (fst (envFlag_Set value prior)) = S (Count value ","%char) /\
  List.length (fst (targetArchFlag_Set value prior))
  = S (Count value ","%char) /\
  List.length (fst (tagsFlag_Set value prior)) = S (Count value ","%char).
Proof.
  rewrite envFlag_Set_eq, targetArchFlag_Set_eq, tagsFlag_Set_eq.
  cbn [fst]. rewrite length_map, Split_length. auto.
Qed.

(** X2.  The env destination keeps the whole raw argument: written with
    commas between them, its elements are the raw argument again, so two
    raw arguments that leave the same destination are equal. *)
Theorem env_Set_keeps_raw_argument (value : string) (prior : envFlag) :
  join_bytes ","%char (fst (envFlag_Set value prior)) = value /\
  forall value' prior',
    fst (envFlag_Set value' prior') = fst (envFlag_Set value prior) ->
    value' = value.
Proof.
  split.
  - rewrite envFlag_Set_eq. apply join_Split.
  - intros value' prior' H. rewrite !envFlag_Set_eq in H. cbn [fst] in H.
    rewrite <- (join_Split value ","%char), <- (join_Split value' ","%char).
    rewrite H. reflexivity.
Qed.

Lemma env_Set_success_equals (value : string) (prior : envFlag) :
  snd (envFlag_Set value prior) = nil ->
  Count value "="%char = S (Count value ","%char).
Proof.
  rewrite envFlag_Set_eq. cbn [snd]. intros H.
  destruct (existsb malformed (Split value ","%char)) eqn:Hm;
    [discriminate|].
  apply all_wellformed_one_equals in Hm.
  rewrite <- (Count_Split_other value ","%char "="%char eq_refl).
  rewrite (list_sum_all_one _ _ Hm), Split_length. reflexivity.
Qed.

(** X3.  When the env variant's [Set] returns no error, the raw argument
    has exactly one ['='] more than it has commas: one for each element of
    the destination. *)
Theorem env_Set_success_counts (value : string) (prior : envFlag) :
  snd (envFlag_Set value prior) = nil ->
  Count value "="%char = S (Count value ","%char) /\
  Count value "="%char = List.length (fst (envFlag_Set value prior)).
Proof.
  rewrite envFlag_Set_eq. cbn [fst snd]. intros H.
  destruct (existsb malformed (Split value ","%char)) eqn:Hm;
    [discriminate|].
  apply all_wellformed_one_equals in Hm.
  rewrite <- (Count_Split_other value ","%char "="%char eq_refl).
  rewrite (list_sum_all_one _ _ Hm), Split_length. auto.
Qed.

Lemma env_Set_success_counts_witness :
  snd (envFlag_Set "a=1,b=" ["x"]) = nil /\
  Count "a=1,b=" "="%char = S (Count "a=1,b=" ","%char).
Proof.
  split; [reflexivity|].
  exact (proj1 (env_Set_success_counts "a=1,b=" ["x"] eq_refl)).
Defined.

(** X4.  The env variant checks neither half of an entry: for a key and a
    value with no comma and no ['='], one of them or both empty included,
    [Set(key + "=" + value)] returns no error and stores the entry as it
    is. *)
Theorem env_Set_accepts_empty_halves (key val : string) (prior : envFlag) :
  Count key ","%char = 0 -> Count key "="%char = 0 ->
  Count val ","%char = 0 -> Count val "="%char = 0 ->
  envFlag_Set (key ++ String "="%char val) prior
  = ([key ++ String "="%char val], nil).
Proof.
  intros Hk1 Hk2 Hv1 Hv2. rewrite envFlag_Set_eq.
  assert (Hsplit : Split (key ++ String "="%char val) ","%char
                   = [key ++ String "="%char val]).
  { unfold Split. rewrite Count_app. cbn [Count]. rewrite Hk1, Hv1.
    reflexivity. }
  rewrite Hsplit. cbn [existsb].
  assert (Hm : malformed (key ++ String "="%char val) = false).
  { apply malformed_false_one_equals. unfold one_equals.
    rewrite Count_app. cbn [Count]. rewrite Hk2, Hv2. reflexivity. }
  rewrite Hm. reflexivity.
Qed.

Lemma env_Set_accepts_empty_halves_witness :
  envFlag_Set "=" ["x"] = (["="], nil).
Proof.
  exact (env_Set_accepts_empty_halves "" "" ["x"]
           eq_refl eq_refl eq_refl eq_refl).
Defined.

(** X5.  A raw argument that has no more ['='] than commas, such as one
    with no ['='] at all or the empty one, is rejected by the env
    variant. *)
Theorem env_Set_rejects_too_few_equals (value : string) (prior : envFlag) :
  Count value "="%char <= Count value ","%char ->
  snd (envFlag_Set value prior)
  = Some (errors_New "env var must defined as KEY=VALUE or KEY=").
Proof.
  intros Hle.
  destruct (snd (envFlag_Set value prior)) as [e|] eqn:He.
  - rewrite envFlag_Set_eq in He. cbn [snd] in He.
    destruct (existsb malformed _); [|discriminate].
    injection He as <-. reflexivity.
  - apply env_Set_success_equals in He. lia.
Qed.

Lemma env_Set_rejects_too_few_equals_witness :
  snd (envFlag_Set "" [])
  = Some (errors_New "env var must defined as KEY=VALUE or KEY=").
Proof.
  apply (env_Set_rejects_too_few_equals "" []). cbn. lia.
Defined.

(** ** The [String] methods *)

Lemma printValue_elems_later (l : list string) (i j : nat) :
  printValue_elems (S i) l = printValue_elems (S j) l.
Proof.
  revert i j. induction l as [|v l IH]; intros i j.
  - reflexivity.
  - cbn. rewrite (IH (S i) (S j)). reflexivity.
Qed.

Lemma printValue_elems_Split (s : string) :
  printValue_elems 0 (Split s ","%char) = replace_byte ","%char " "%char s /\
  printValue_elems 1 (Split s ","%char)
  = String " "%char (replace_byte ","%char " "%char s).
Proof.
  induction s as [|c s [IH0 IH1]].
  - split; reflexivity.
  - destruct (Ascii.eqb c ","%char) eqn:Hc.
    + pose proof Hc as Hc'. apply Ascii.eqb_eq in Hc'. subst c.
      rewrite Split_sep. cbn [replace_byte]. rewrite Hc.
      cbn [printValue_elems Nat.ltb Nat.leb String.append].
      rewrite (printValue_elems_later _ 1 0), IH1. split; reflexivity.
    + rewrite (Split_other _ _ _ Hc). cbn [replace_byte]. rewrite Hc.
      destruct (Split s ","%char) as [|p ps] eqn:Hs.
      * exfalso. exact (Split_not_nil _ _ Hs).
      * cbn [printValue_elems Nat.ltb Nat.leb String.append] in *.
        rewrite (printValue_elems_later _ 1 0) in IH1.
        rewrite (printValue_elems_later _ 1 0).
        injection IH1 as IH1. rewrite IH0. split; reflexivity.
Qed.

(** X6.  After [Set] on an env flag, failed or not, [String] gives the
    raw argument with every comma replaced by a space, between square
    brackets. *)
Theorem env_String_after_Set (value : string) (prior : envFlag) :
  envFlag_String (fst (envFlag_Set value prior))
  = "[" ++ replace_byte ","%char " "%char value ++ "]".
Proof.
  rewrite envFlag_Set_eq. cbn [fst]. unfold envFlag_String, fmt_Sprint.
  rewrite (proj1 (printValue_elems_Split value)). reflexivity.
Qed.

(** X7.  [String] does not tell two elements from one element with a
    space in it: the three [String] methods give the same text for
    [a :: b :: l] and for [(a + " " + b) :: l], so the list cannot be read
    back from the text. *)
Theorem String_merges_neighbours (a b : string) (l : list string) :
  envFlag_String (a :: b :: l) = envFlag_String ((a ++ String " "%char b) :: l)
  /\ targetArchFlag_String (a :: b :: l)
     = targetArchFlag_String ((a ++ String " "%char b) :: l)
  /\ tagsFlag_String (a :: b :: l)
     = tagsFlag_String ((a ++ String " "%char b) :: l)
  /\ a :: b :: l <> (a ++ String " "%char b) :: l.
Proof.
  assert (H : fmt_Sprint (a :: b :: l)
              = fmt_Sprint ((a ++ String " "%char b) :: l)).
  { unfold fmt_Sprint. do 2 f_equal.
    cbn [printValue_elems Nat.ltb Nat.leb String.append].
    rewrite (printValue_elems_later l 1 0).
    rewrite string_app_assoc. reflexivity. }
  repeat apply conj; try exact H.
  intros Heq. apply (f_equal (@List.length string)) in Heq.
  cbn in Heq. lia.
Qed.

(** ** [filepath.Split] and [defaultOutput] *)

Lemma slice_to_from (n : nat) (s : string) :
  slice_to n s ++ slice_from n s = s.
Proof.
  revert n. induction s as [|c s IH]; intros [|n]; cbn; try reflexivity.
  rewrite IH. reflexivity.
Qed.

Lemma slice_to_length (n : nat) (s : string) :
  n <= String.length s -> String.length (slice_to n s) = n.
Proof.
  revert n. induction s as [|c s IH]; intros [|n] Hn; cbn in *;
    try reflexivity; try lia.
  rewrite IH; [reflexivity | lia].
Qed.

Lemma slice_to_S (n : nat) (s : string) :
  n < String.length s ->
  slice_to (S n) s = slice_to n s ++ String (char_at s n) "".
Proof.
  revert n. induction s as [|c s IH]; intros n Hn; cbn in Hn; [lia|].
  destruct n as [|n].
  - destruct s; reflexivity.
  - change (slice_to (S (S n)) (String c s))
      with (String c (slice_to (S n) s)).
    rewrite IH by lia. reflexivity.
Qed.

Lemma slice_from_chars (n : nat) (s : string) (c : ascii) :
  In c (list_ascii_of_string (slice_from n s)) ->
  exists i, n <= i < String.length s /\ char_at s i = c.
Proof.
  revert n. induction s as [|x s IH]; intros n Hin.
  - destruct n; cbn in Hin; contradiction.
  - destruct n as [|n].
    + cbn [slice_from list_ascii_of_string] in Hin.
      destruct Hin as [<- | Hin].
      * exists 0. cbn. split; [lia | reflexivity].
      * destruct (IH 0) as [i [Hi Hc]].
        { destruct s; exact Hin. }
        exists (S i). cbn. split; [lia | exact Hc].
    + cbn [slice_from] in Hin. destruct (IH n Hin) as [i [Hi Hc]].
      exists (S i). cbn. split; [lia | exact Hc].
Qed.

Section FilepathSplit.

Variable h : Host.
Variable path : string.
Variable lenvol : nat.

Lemma filepath_Split_scan_le (n : nat) :
  filepath_Split_scan h path lenvol n <= n.
Proof.
  induction n as [|i IH]; cbn; [lia|].
  destruct (_ && _); lia.
Qed.

(** Behind the cut there is no separator. *)
Lemma filepath_Split_scan_file (n : nat) :
  (forall i, n <= i < String.length path ->
             os_IsPathSeparator h (char_at path i) = false) ->
  forall i, filepath_Split_scan h path lenvol n <= i < String.length path ->
            os_IsPathSeparator h (char_at path i) = false.
Proof.
  induction n as [|k IH]; cbn [filepath_Split_scan]; intros Hn i Hi.
  - apply Hn. lia.
  - destruct (Nat.leb lenvol k && negb (os_IsPathSeparator h (char_at path k)))
      eqn:Hc.
    + apply IH; [|exact Hi]. intros j Hj.
      destruct (Nat.eq_dec j k) as [->|Hjk].
      * apply andb_true_iff in Hc. destruct Hc as [_ Hc].
        apply negb_true_iff in Hc. exact Hc.
      * apply Hn. lia.
    + apply Hn. exact Hi.
Qed.

(** The cut is at the start, inside the volume name, or just behind a
    separator. *)
Lemma filepath_Split_scan_dir (n : nat) :
  filepath_Split_scan h path lenvol n <= lenvol \/
  exists i, filepath_Split_scan h path lenvol n = S i /\
            os_IsPathSeparator h (char_at path i) = true.
Proof.
  induction n as [|k IH]; cbn [filepath_Split_scan]; [left; lia|].
  destruct (Nat.leb lenvol k) eqn:Hk; cbn [andb].
  - destruct (os_IsPathSeparator h (char_at path k)) eqn:Hs; cbn [negb].
    + right. exists k. auto.
    + exact IH.
  - left. apply Nat.leb_gt in Hk. lia.
Qed.

End FilepathSplit.

(** X8.  When [os.Getwd] succeeds, [defaultOutput] returns no error and
    the last element of the working directory: the directory is some [dir]
    followed by the output, the output holds no path separator, and [dir]
    lies within the volume name or ends with a separator. *)
Theorem defaultOutput_last_element (h : Host) (wd : string) :
  os_Getwd h = (wd, None) ->
  snd (defaultOutput h) = nil /\
  exists dir,
    wd = dir ++ fst (defaultOutput h) /\
    forallb (fun c => negb (os_IsPathSeparator h c))
            (list_ascii_of_string (fst (defaultOutput h))) = true /\
    (String.length dir <= String.length (filepath_VolumeName h wd) \/
     exists d c, dir = d ++ String c "" /\ os_IsPathSeparator h c = true).
Proof.
  intros Hwd. unfold defaultOutput, filepath_Split. rewrite Hwd. cbn [fst snd].
  split; [reflexivity|].
  set (lenvol := String.length (filepath_VolumeName h wd)).
  set (n := filepath_Split_scan h wd lenvol (String.length wd)).
  assert (Hle : n <= String.length wd) by apply filepath_Split_scan_le.
  exists (slice_to n wd). repeat apply conj.
  - symmetry. apply slice_to_from.
  - apply forallb_forall. intros c Hin.
    apply slice_from_chars in Hin. destruct Hin as [i [Hi <-]].
    apply negb_true_iff.
    apply (filepath_Split_scan_file h wd lenvol (String.length wd));
      [intros j Hj; lia | exact Hi].
  - rewrite slice_to_length by exact Hle.
    destruct (filepath_Split_scan_dir h wd lenvol (String.length wd))
      as [Hv | [i [Hi Hs]]].
    + left. exact Hv.
    + right. fold n in Hi. exists (slice_to i wd), (char_at wd i).
      split; [|exact Hs]. rewrite Hi. apply slice_to_S. lia.
Qed.

Lemma defaultOutput_last_element_witness :
  snd (defaultOutput (unix ("/home/u/proj", None) ("", None) ("", None)
                           ("", None))) = nil.
Proof.
  exact (proj1 (defaultOutput_last_element
                  (unix ("/home/u/proj", None) ("", None) ("", None)
                        ("", None)) "/home/u/proj" eq_refl)).
Defined.

Lemma string_length_app (a b : string) :
  String.length (a ++ b) = String.length a + String.length b.
Proof.
  induction a as [|x a IH]; cbn; [reflexivity | rewrite IH; reflexivity].
Qed.

Lemma char_at_app_end (d : string) (c : ascii) :
  char_at (d ++ String c "") (String.length d) = c.
Proof.
  unfold char_at. induction d as [|x d IH]; cbn; [reflexivity | exact IH].
Qed.

Lemma slice_from_all (s : string) : slice_from (String.length s) s = "".
Proof.
  induction s as [|x s IH]; cbn; [reflexivity | exact IH].
Qed.

(** X9.  When the working directory ends with a path separator that is
    not part of its volume name, as the root directory ["/"] does,
    [defaultOutput] returns the empty string and no error. *)
Theorem defaultOutput_trailing_separator (h : Host) (d : string) (c : ascii) :
  os_Getwd h = (d ++ String c "", None) ->
  os_IsPathSeparator h c = true ->
  String.length (filepath_VolumeName h (d ++ String c "")) <= String.length d ->
  defaultOutput h = ("", nil).
Proof.
  intros Hwd Hc Hvol. unfold defaultOutput, filepath_Split. rewrite Hwd.
  rewrite string_length_app. cbn [String.length].
  replace (String.length d + 1) with (S (String.length d)) by lia.
  cbn [filepath_Split_scan]. rewrite char_at_app_end, Hc.
  apply Nat.leb_le in Hvol. rewrite Hvol. cbn [andb negb].
  replace (S (String.length d)) with (String.length (d ++ String c "")).
  - rewrite slice_from_all. reflexivity.
  - rewrite string_length_app. cbn. lia.
Qed.

Lemma defaultOutput_trailing_separator_witness :
  defaultOutput (unix ("/", None) ("", None) ("", None) ("", None))
  = ("", nil).
Proof.
  apply (defaultOutput_trailing_separator
           (unix ("/", None) ("", None) ("", None) ("", None)) "" "/"%char).
  - reflexivity.
  - reflexivity.
  - cbn. lia.
Defined.

(** ** [newCommonFlags] *)

Section NewCommonFlags.

Variable h : Host.
Variables wd rootDir cacheDir defaultIcon : string.
Hypothesis Getwd_ok : os_Getwd h = (wd, None).
Hypothesis WorkDir_ok : volume_DefaultWorkDirHost h = (rootDir, None).
Hypothesis CacheDir_ok : volume_DefaultCacheDirHost h = (cacheDir, None).
Hypothesis Icon_ok : volume_DefaultIconHost h = (defaultIcon, None).

Lemma defaultOutput_ok : defaultOutput h = (snd (filepath_Split h wd), None).
Proof.
  unfold defaultOutput. rewrite Getwd_ok.
  destruct (filepath_Split h wd). reflexivity.
Qed.

Ltac declare_step fs :=
  cbn;
  match goal with
  | |- context [formal_at (formal fs) ?n] =>
      destruct (formal_at (formal fs) n) eqn:?;
      [ cbn; eexists; split; [reflexivity|];
        refine (ex_intro _ _ (conj _ (or_introl eq_refl))); cbn; tauto
      | cbn;
        destruct (String.eqb (undef_at (undef fs) n) "") eqn:?;
        [ | cbn; eexists; split; [reflexivity|];
            refine (ex_intro _ _ (conj _ (or_intror (conj _ eq_refl))));
            [ cbn; tauto
            | apply String.eqb_neq; assumption ] ] ]
  end.

(** When the four lookups succeed, [newCommonFlags] declares its fourteen
    flags if all the names are fresh, and panics at the first name that is
    taken otherwise. *)
Lemma newCommonFlags_declares (fs : FlagSet) :
  if forallb (fresh fs) declared_names
  then
    exists news,
      newCommonFlags h fs
      = Done ({| name := name fs; formal := (news ++ formal fs)%list;
                 undef := undef fs |},
              (Some {| AppID := snd (filepath_Split h wd); CacheDir := cacheDir;
                       DockerImage := ""; Env := []; Icon := defaultIcon;
                       Ldflags := ""; Tags := []; NoCache := false;
                       NoStripDebug := false; Output := snd (filepath_Split h wd);
                       RootDir := rootDir; Silent := false; Debug := false;
                       Pull := false |}, nil)) /\
      map Name news = rev declared_names /\
      Forall (fun flag =>
                DefValue flag
                = flag_Value_String (Value flag)
                    {| AppID := snd (filepath_Split h wd); CacheDir := cacheDir;
                       DockerImage := ""; Env := []; Icon := defaultIcon;
                       Ldflags := ""; Tags := []; NoCache := false;
                       NoStripDebug := false; Output := snd (filepath_Split h wd);
                       RootDir := rootDir; Silent := false; Debug := false;
                       Pull := false |}) news /\
      NoDup (map Value news)
  else
    exists p, newCommonFlags h fs = Panic p /\ name_taken fs p.
Proof.
  unfold newCommonFlags. rewrite defaultOutput_ok, WorkDir_ok, CacheDir_ok,
    Icon_ok.
  unfold name_taken, fresh, declared_names, decl_seq, FlagSet_StringVar,
    FlagSet_BoolVar, FlagSet_Var_of, FlagSet_Var, FlagSet_name.
  do 14 (declare_step fs).
  cbn. refine (ex_intro _ [_; _; _; _; _; _; _; _; _; _; _; _; _; _] _).
  repeat apply conj; try reflexivity.
  - repeat constructor.
  - repeat constructor; cbn; intuition discriminate.
Qed.

End NewCommonFlags.

Lemma formal_at_declared (news l : list Flag) (n : string) :
  In n (map Name news) -> formal_at (news ++ l) n <> None.
Proof.
  induction news as [|flag news IH]; cbn; [contradiction|].
  intros [Hn | Hin].
  - rewrite Hn, String.eqb_refl. discriminate.
  - destruct (String.eqb (Name flag) n); [discriminate | exact (IH Hin)].
Qed.

(** With "app-id" declared, a run whose lookups succeed panics at its
    first declaration. *)
Lemma newCommonFlags_redefines (h : Host) (fs : FlagSet)
  (wd rootDir cacheDir defaultIcon : string) :
  os_Getwd h = (wd, None) ->
  volume_DefaultWorkDirHost h = (rootDir, None) ->
  volume_DefaultCacheDirHost h = (cacheDir, None) ->
  volume_DefaultIconHost h = (defaultIcon, None) ->
  formal_at (formal fs) "app-id" <> None ->
  newCommonFlags h fs = Panic (flag_redefined (name fs) "app-id").
Proof.
  intros H1 H2 H3 H4 Hdecl. unfold newCommonFlags.
  rewrite (defaultOutput_ok h wd H1), H2, H3, H4.
  unfold decl_seq at 1. unfold FlagSet_StringVar at 1.
  unfold FlagSet_Var. cbn.
  destruct (formal_at (formal fs) "app-id"); [reflexivity | congruence].
Qed.

(** Without an error there is a struct, and the four lookups succeeded. *)
Lemma newCommonFlags_lookups (h : Host) (fs fs' : FlagSet)
  (r : option CommonFlags) (e : option error) :
  newCommonFlags h fs = Done (fs', (r, e)) ->
  (e <> None /\ r = None /\ fs' = fs /\
   (snd (defaultOutput h) = e \/ snd (volume_DefaultWorkDirHost h) = e \/
    snd (volume_DefaultCacheDirHost h) = e \/
    snd (volume_DefaultIconHost h) = e)) \/
  (e = None /\ r <> None /\
   exists wd rootDir cacheDir defaultIcon,
     os_Getwd h = (wd, None) /\
     volume_DefaultWorkDirHost h = (rootDir, None) /\
     volume_DefaultCacheDirHost h = (cacheDir, None) /\
     volume_DefaultIconHost h = (defaultIcon, None)).
Proof.
  unfold newCommonFlags, defaultOutput.
  destruct (os_Getwd h) as [wd [e1|]].
  { cbv beta iota. intros H. injection H as <- <- <-. left. cbn.
    repeat split; auto; discriminate. }
  destruct (filepath_Split h wd) as [dir output].
  destruct (volume_DefaultWorkDirHost h) as [rootDir [e2|]].
  { cbv beta iota. intros H. injection H as <- <- <-. left. cbn.
    repeat split; auto; discriminate. }
  destruct (volume_DefaultCacheDirHost h) as [cacheDir [e3|]].
  { cbv beta iota. intros H. injection H as <- <- <-. left. cbn.
    repeat split; auto; discriminate. }
  destruct (volume_DefaultIconHost h) as [defaultIcon [e4|]].
  { cbv beta iota. intros H. injection H as <- <- <-. left. cbn.
    repeat split; auto; discriminate. }
  cbv beta iota.
  destruct (decl_seq _ _ _) as [[flags fs'']|p]; [|discriminate].
  intros H. injection H as <- <- <-. right.
  repeat split; [discriminate|].
  exists wd, rootDir, cacheDir, defaultIcon. auto.
Qed.

(** X10.  [newCommonFlags] returns an error exactly when [os.Getwd] or one
    of the three lookups of [internal/volume] fails.  The error is one of
    theirs ([defaultOutput]'s for [os.Getwd]), the pointer returned is nil
    and the flag set is as it was: no flag is declared, and there is no
    panic even if the names are taken. *)
Theorem newCommonFlags_error_iff_lookup_fails (h : Host) (fs : FlagSet) :
  ((exists fs' r e, newCommonFlags h fs = Done (fs', (r, Some e))) <->
   (snd (os_Getwd h) <> None \/ snd (volume_DefaultWorkDirHost h) <> None \/
    snd (volume_DefaultCacheDirHost h) <> None \/
    snd (volume_DefaultIconHost h) <> None)) /\
  (forall fs' r e,
      newCommonFlags h fs = Done (fs', (r, Some e)) ->
      fs' = fs /\ r = None /\
      (snd (defaultOutput h) = Some e \/
       snd (volume_DefaultWorkDirHost h) = Some e \/
       snd (volume_DefaultCacheDirHost h) = Some e \/
       snd (volume_DefaultIconHost h) = Some e)).
Proof.
  split; [split|].
  - intros [fs' [r [e H]]].
    apply newCommonFlags_lookups in H.
    destruct H as [[_ [_ [_ H]]] | [H _]]; [|discriminate].
    unfold defaultOutput in H.
    destruct (os_Getwd h) as [wd [e1|]]; cbn; [left; discriminate|].
    destruct (filepath_Split h wd) as [dir output]. cbn in H.
    destruct H as [H | [H | [H | H]]]; [discriminate | | |];
      rewrite H; right; [left | right; left | right; right]; discriminate.
  - intros H. unfold newCommonFlags, defaultOutput.
    destruct (os_Getwd h) as [wd [e1|]];
      [solve [unfold nil; cbn; eauto]|].
    destruct (filepath_Split h wd) as [dir output].
    destruct (volume_DefaultWorkDirHost h) as [rootDir [e2|]];
      [solve [unfold nil; cbn; eauto]|].
    destruct (volume_DefaultCacheDirHost h) as [cacheDir [e3|]];
      [solve [unfold nil; cbn; eauto]|].
    destruct (volume_DefaultIconHost h) as [defaultIcon [e4|]];
      [solve [unfold nil; cbn; eauto]|].
    cbn in H. destruct H as [H | [H | [H | H]]]; congruence.
  - intros fs' r e H. apply newCommonFlags_lookups in H.
    destruct H as [[_ [Hr [Hfs H]]] | [H _]]; [auto | discriminate].
Qed.

(** X11.  The lookups are made in the order [os.Getwd], work directory,
    cache directory, icon, and the first that fails decides the result,
    whatever the later ones give: a failure of [os.Getwd] is returned as
    "cannot get the path for current directory " followed by the text of
    the cause, a failure of one of the other three as it is.  Nothing is
    declared. *)
Theorem newCommonFlags_first_failure (h : Host) (fs : FlagSet) :
  (forall wd cause,
      os_Getwd h = (wd, Some cause) ->
      newCommonFlags h fs
      = Done (fs, (None,
                   Some (errors_New
                           ("cannot get the path for current directory "
                            ++ Error cause))))) /\
  (forall wd x e,
      os_Getwd h = (wd, None) ->
      volume_DefaultWorkDirHost h = (x, Some e) ->
      newCommonFlags h fs = Done (fs, (None, Some e))) /\
  (forall wd rootDir x e,
      os_Getwd h = (wd, None) ->
      volume_DefaultWorkDirHost h = (rootDir, None) ->
      volume_DefaultCacheDirHost h = (x, Some e) ->
      newCommonFlags h fs = Done (fs, (None, Some e))) /\
  (forall wd rootDir cacheDir x e,
      os_Getwd h = (wd, None) ->
      volume_DefaultWorkDirHost h = (rootDir, None) ->
      volume_DefaultCacheDirHost h = (cacheDir, None) ->
      volume_DefaultIconHost h = (x, Some e) ->
      newCommonFlags h fs = Done (fs, (None, Some e))).
Proof.
  repeat apply conj; intros; unfold newCommonFlags, defaultOutput;
    repeat match goal with
           | H : _ h = _ |- _ => rewrite H; clear H
           end;
    try destruct (filepath_Split h wd); reflexivity.
Qed.

Lemma newCommonFlags_first_failure_witness :
  newCommonFlags
    (unix ("", Some (errors_New "getwd: no such file or directory"))
          ("", Some (errors_New "no work dir")) ("", None) ("", None))
    flagSet
  = Done (flagSet,
          (None,
           Some (errors_New
                   "cannot get the path for current directory getwd: no such file or directory"))).
Proof.
  exact (proj1 (newCommonFlags_first_failure
                  (unix ("", Some (errors_New
                                     "getwd: no such file or directory"))
                        ("", Some (errors_New "no work dir")) ("", None)
                        ("", None))
                  flagSet) "" _ eq_refl).
Defined.

(** X12.  When the four lookups succeed and none of the fourteen names is
    taken, [newCommonFlags] returns no error and a struct whose [AppID]
    and [Output] are both the last element of the working directory,
    whose [CacheDir], [RootDir] and [Icon] are the results of the lookups,
    and whose other fields are empty or false. *)
Theorem newCommonFlags_defaults (h : Host) (fs : FlagSet)
  (wd rootDir cacheDir defaultIcon : string) :
  os_Getwd h = (wd, None) ->
  volume_DefaultWorkDirHost h = (rootDir, None) ->
  volume_DefaultCacheDirHost h = (cacheDir, None) ->
  volume_DefaultIconHost h = (defaultIcon, None) ->
  forallb (fresh fs) declared_names = true ->
  exists fs',
    newCommonFlags h fs
    = Done (fs',
            (Some {| AppID := snd (filepath_Split h wd);
                     CacheDir := cacheDir; DockerImage := ""; Env := [];
                     Icon := defaultIcon; Ldflags := ""; Tags := [];
                     NoCache := false; NoStripDebug := false;
                     Output := snd (filepath_Split h wd);
                     RootDir := rootDir; Silent := false; Debug := false;
                     Pull := false |}, nil)).
Proof.
  intros H1 H2 H3 H4 Hfresh.
  pose proof (newCommonFlags_declares h wd rootDir cacheDir defaultIcon
                H1 H2 H3 H4 fs) as H.
  rewrite Hfresh in H. destruct H as [news [H _]]. eauto.
Qed.

Lemma newCommonFlags_defaults_witness :
  exists fs',
    newCommonFlags
      (unix ("/home/u/app", None) ("/home/u/app", None)
            ("/home/u/.cache/fyne-cross", None) ("/home/u/app/Icon.png", None))
      flagSet
    = Done (fs',
            (Some {| AppID := "app"; CacheDir := "/home/u/.cache/fyne-cross";
                     DockerImage := ""; Env := [];
                     Icon := "/home/u/app/Icon.png"; Ldflags := "";
                     Tags := []; NoCache := false; NoStripDebug := false;
                     Output := "app"; RootDir := "/home/u/app";
                     Silent := false; Debug := false; Pull := false |}, nil)).
Proof.
  exact (newCommonFlags_defaults
           (unix ("/home/u/app", None) ("/home/u/app", None)
                 ("/home/u/.cache/fyne-cross", None)
                 ("/home/u/app/Icon.png", None))
           flagSet "/home/u/app" "/home/u/app" "/home/u/.cache/fyne-cross"
           "/home/u/app/Icon.png" eq_refl eq_refl eq_refl eq_refl eq_refl).
Defined.

(** X13.  Under the same conditions the flag set keeps its name and the
    flags it had, and gains fourteen flags in front of them, named
    "app-id" ... "pull" in the order of the calls.  No two of them have
    the same value, that is, write to the same field, and the default
    text of each is what its value prints in the struct returned. *)
Theorem newCommonFlags_flag_set (h : Host) (fs : FlagSet)
  (wd rootDir cacheDir defaultIcon : string) :
  os_Getwd h = (wd, None) ->
  volume_DefaultWorkDirHost h = (rootDir, None) ->
  volume_DefaultCacheDirHost h = (cacheDir, None) ->
  volume_DefaultIconHost h = (defaultIcon, None) ->
  forallb (fresh fs) declared_names = true ->
  exists fs' flags news,
    newCommonFlags h fs = Done (fs', (Some flags, nil)) /\
    name fs' = name fs /\ undef fs' = undef fs /\
    formal fs' = (news ++ formal fs)%list /\
    map Name news = rev declared_names /\
    NoDup (map Value news) /\
    Forall (fun flag => DefValue flag = flag_Value_String (Value flag) flags)
           news.
Proof.
  intros H1 H2 H3 H4 Hfresh.
  pose proof (newCommonFlags_declares h wd rootDir cacheDir defaultIcon
                H1 H2 H3 H4 fs) as H.
  rewrite Hfresh in H. destruct H as [news [H [Hn [Hd Hv]]]].
  eexists _, _, news. split; [exact H|]. cbn [name undef formal]. auto 10.
Qed.

Lemma newCommonFlags_flag_set_witness :
  exists fs' flags news,
    newCommonFlags
      (unix ("/home/u/app", None) ("/home/u/app", None)
            ("/home/u/.cache/fyne-cross", None) ("/home/u/app/Icon.png", None))
      flagSet
    = Done (fs', (Some flags, nil)) /\
    name fs' = name flagSet /\ undef fs' = undef flagSet /\
    formal fs' = (news ++ formal flagSet)%list /\
    map Name news = rev declared_names /\
    NoDup (map Value news) /\
    Forall (fun flag => DefValue flag = flag_Value_String (Value flag) flags)
           news.
Proof.
  exact (newCommonFlags_flag_set
           (unix ("/home/u/app", None) ("/home/u/app", None)
                 ("/home/u/.cache/fyne-cross", None)
                 ("/home/u/app/Icon.png", None))
           flagSet "/home/u/app" "/home/u/app" "/home/u/.cache/fyne-cross"
           "/home/u/app/Icon.png" eq_refl eq_refl eq_refl eq_refl eq_refl).
Defined.

(** X14.  When the four lookups succeed, [newCommonFlags] panics exactly
    when one of its fourteen names is taken in the flag set, declared or
    set before being declared; the panic is the one [f.Var] raises for
    such a name, never the one for a name that begins with ['-'] or
    contains ['=']. *)
Theorem newCommonFlags_panics_iff_name_taken (h : Host) (fs : FlagSet)
  (wd rootDir cacheDir defaultIcon : string) :
  os_Getwd h = (wd, None) ->
  volume_DefaultWorkDirHost h = (rootDir, None) ->
  volume_DefaultCacheDirHost h = (cacheDir, None) ->
  volume_DefaultIconHost h = (defaultIcon, None) ->
  ((exists p, newCommonFlags h fs = Panic p) <->
   forallb (fresh fs) declared_names = false) /\
  (forall p, newCommonFlags h fs = Panic p -> name_taken fs p).
Proof.
  intros H1 H2 H3 H4.
  pose proof (newCommonFlags_declares h wd rootDir cacheDir defaultIcon
                H1 H2 H3 H4 fs) as H.
  destruct (forallb (fresh fs) declared_names).
  - destruct H as [news [H _]]. split; [split|].
    + intros [p Hp]. congruence.
    + discriminate.
    + intros p Hp. congruence.
  - destruct H as [p [Hp Htaken]]. split; [split|].
    + reflexivity.
    + eauto.
    + intros p' Hp'. rewrite Hp in Hp'. injection Hp' as <-. exact Htaken.
Qed.

Lemma newCommonFlags_panics_iff_name_taken_witness :
  (exists p,
      newCommonFlags (unix ("/a", None) ("/a", None) ("/c", None) ("i", None))
        {| name := "fyne-cross"; formal := []; undef := [("tags", "here")] |}
      = Panic p) <->
  forallb (fresh {| name := "fyne-cross"; formal := [];
                    undef := [("tags", "here")] |}) declared_names = false.
Proof.
  exact (proj1 (newCommonFlags_panics_iff_name_taken
                  (unix ("/a", None) ("/a", None) ("/c", None) ("i", None))
                  {| name := "fyne-cross"; formal := [];
                     undef := [("tags", "here")] |}
                  "/a" "/a" "/c" "i" eq_refl eq_refl eq_refl eq_refl)).
Defined.

(** X15.  [newCommonFlags] works once on a flag set: after a call that
    returned a struct, a second call on the same flag set, on a host whose
    lookups succeed, panics at its first declaration with "flag
    redefined" for "app-id". *)
Theorem newCommonFlags_twice_panics (h h' : Host) (fs fs' : FlagSet)
  (flags : CommonFlags) (e : option error)
  (wd rootDir cacheDir defaultIcon : string) :
  newCommonFlags h fs = Done (fs', (Some flags, e)) ->
  os_Getwd h' = (wd, None) ->
  volume_DefaultWorkDirHost h' = (rootDir, None) ->
  volume_DefaultCacheDirHost h' = (cacheDir, None) ->
  volume_DefaultIconHost h' = (defaultIcon, None) ->
  newCommonFlags h' fs' = Panic (flag_redefined (name fs) "app-id").
Proof.
  intros Hfirst H1 H2 H3 H4.
  pose proof (newCommonFlags_lookups _ _ _ _ _ Hfirst) as Hl.
  destruct Hl as [[_ [Hr _]] | [_ [_ [wd0 [r0 [c0 [i0 [G1 [G2 [G3 G4]]]]]]]]]];
    [discriminate|].
  pose proof (newCommonFlags_declares h wd0 r0 c0 i0 G1 G2 G3 G4 fs) as H.
  destruct (forallb (fresh fs) declared_names).
  - destruct H as [news [H [Hn _]]]. rewrite H in Hfirst.
    injection Hfirst as <- _ _.
    rewrite (newCommonFlags_redefines h' _ wd rootDir cacheDir defaultIcon
               H1 H2 H3 H4); [reflexivity|].
    cbn [formal]. apply formal_at_declared. rewrite Hn. cbn. tauto.
  - destruct H as [p [Hp _]]. congruence.
Qed.

Lemma newCommonFlags_twice_panics_witness :
  match
    newCommonFlags (unix ("/a", None) ("/a", None) ("/c", None) ("i", None))
      flagSet
  with
  | Done (fs', (Some _, None)) =>
      newCommonFlags (unix ("/b", None) ("/b", None) ("/c", None) ("i", None))
        fs' = Panic (flag_redefined "fyne-cross" "app-id")
  | _ => False
  end.
Proof.
  destruct (newCommonFlags
              (unix ("/a", None) ("/a", None) ("/c", None) ("i", None))
              flagSet) as [[fs' [[flags|] [e|]]]|p] eqn:H;
    try (vm_compute in H; discriminate H).
  exact (newCommonFlags_twice_panics
           (unix ("/a", None) ("/a", None) ("/c", None) ("i", None))
           (unix ("/b", None) ("/b", None) ("/c", None) ("i", None))
           flagSet fs' flags nil "/b" "/b" "/c" "i" H
           eq_refl eq_refl eq_refl eq_refl).
Defined.

(** ** [TrimSpace] returns a part of its argument *)

Lemma part_of_refl (s : string) : part_of s s.
Proof. exists "", "". cbn. rewrite string_app_nil_r. reflexivity. Qed.

Lemma part_of_empty (s : string) : part_of "" s.
Proof. exists s, "". cbn. rewrite string_app_nil_r. reflexivity. Qed.

Lemma part_of_trans (a b c : string) : part_of a b -> part_of b c -> part_of a c.
Proof.
  intros [p1 [q1 H1]] [p2 [q2 H2]]. subst. exists (p2 ++ p1), (q1 ++ q2).
  rewrite !string_app_assoc. reflexivity.
Qed.

Lemma starts_part_of (s t : string) : starts s t -> part_of t s.
Proof. intros [post H]. exists "", post. exact H. Qed.

Lemma starts_refl (s : string) : starts s s.
Proof. exists "". rewrite string_app_nil_r. reflexivity. Qed.

Lemma starts_empty (s : string) : starts s "".
Proof. exists s. reflexivity. Qed.

Lemma starts_trans (a b c : string) : starts a b -> starts b c -> starts a c.
Proof.
  intros [p H1] [q H2]. subst. exists (q ++ p).
  rewrite string_app_assoc. reflexivity.
Qed.

Lemma starts_slice_to (n : nat) (s : string) : starts s (slice_to n s).
Proof. exists (slice_from n s). symmetry. apply slice_to_from. Qed.

Lemma part_of_slice_from (n : nat) (s : string) : part_of (slice_from n s) s.
Proof.
  exists (slice_to n s), "". rewrite string_app_nil_r. symmetry.
  apply slice_to_from.
Qed.

Lemma string_of_list_ascii_app (a b : list ascii) :
  string_of_list_ascii (a ++ b)
  = string_of_list_ascii a ++ string_of_list_ascii b.
Proof.
  induction a as [|x a IH]; cbn; [reflexivity | rewrite IH; reflexivity].
Qed.

Lemma starts_TrimRightFunc (s : string) (f : N -> bool) :
  starts s (TrimRightFunc s f).
Proof.
  unfold TrimRightFunc. destruct (lastIndexFunc s f false) as [i|].
  - destruct (RuneSelf <=? byte_at s i)%N; apply starts_slice_to.
  - apply starts_empty.
Qed.

Lemma part_of_TrimLeftFunc (s : string) (f : N -> bool) :
  part_of (TrimLeftFunc s f) s.
Proof.
  unfold TrimLeftFunc. destruct (indexFunc s f false) as [i|].
  - apply part_of_slice_from.
  - apply part_of_empty.
Qed.

Lemma starts_TrimSpace_stop (rs : list ascii) :
  starts (string_of_list_ascii (rev rs)) (TrimSpace_stop rs).
Proof.
  induction rs as [|c rs IH]; cbn [TrimSpace_stop].
  - apply starts_empty.
  - destruct (RuneSelf <=? byte c)%N; [apply starts_TrimRightFunc|].
    destruct (asciiSpace (byte c)); [|apply starts_refl].
    apply (starts_trans _ (string_of_list_ascii (rev rs))); [|exact IH].
    cbn [rev]. rewrite string_of_list_ascii_app.
    exists (string_of_list_ascii [c]). reflexivity.
Qed.

Lemma string_of_rev_rev (s : string) :
  string_of_list_ascii (rev (rev (list_ascii_of_string s))) = s.
Proof. rewrite rev_involutive. apply string_of_list_ascii_of_string. Qed.

Lemma part_of_TrimSpace (s : string) : part_of (TrimSpace s) s.
Proof.
  induction s as [|c s IH]; cbn [TrimSpace].
  - apply part_of_refl.
  - destruct (RuneSelf <=? byte c)%N.
    + unfold TrimFunc.
      eapply part_of_trans; [|apply part_of_TrimLeftFunc].
      apply starts_part_of, starts_TrimRightFunc.
    + destruct (asciiSpace (byte c)).
      * destruct IH as [pre [post IH]]. exists (String c pre), post.
        cbn. rewrite <- IH. reflexivity.
      * apply starts_part_of.
        rewrite <- (string_of_rev_rev (String c s)) at 1.
        apply starts_TrimSpace_stop.
Qed.

Lemma Count_part_of (t s : string) (c : ascii) :
  part_of t s -> Count s c = 0 -> Count t c = 0.
Proof.
  intros [pre [post ->]]. rewrite !Count_app. lia.
Qed.

(** X16.  After [Set], failed or not, no element of the destination of any
    of the three variants holds a comma. *)
Theorem Set_elements_have_no_comma (value : string) (prior : list string) :
  Forall (fun v => Count v ","%char = 0) (fst (envFlag_Set value prior)) /\
  Forall (fun v => Count v ","%char = 0)
         (fst (targetArchFlag_Set value prior)) /\
  Forall (fun v => Count v ","%char = 0) (fst (tagsFlag_Set value prior)).
Proof.
  rewrite envFlag_Set_eq, targetArchFlag_Set_eq, tagsFlag_Set_eq. cbn [fst].
  assert (H : Forall (fun v => Count v ","%char = 0)
                     (map TrimSpace (Split value ","%char))).
  { apply Forall_map.
    eapply Forall_impl; [|apply Split_pieces_no_sep].
    intros p Hp. apply (Count_part_of _ p); [apply part_of_TrimSpace | exact Hp]. }
  repeat apply conj; try exact H. apply Split_pieces_no_sep.
Qed.

(** X17.  Each element the architecture and tags variants store is a run
    of consecutive bytes of the comma-split piece at the same place: [Set]
    only takes bytes away at the two ends of a piece. *)
Theorem trimmed_elements_are_parts_of_pieces (value : string)
  (prior : list string) :
  Forall2 part_of (fst (tagsFlag_Set value prior)) (Split value ","%char) /\
  Forall2 part_of (fst (targetArchFlag_Set value prior))
          (Split value ","%char).
Proof.
  rewrite targetArchFlag_Set_eq, tagsFlag_Set_eq. cbn [fst].
  assert (H : forall l, Forall2 part_of (map TrimSpace l) l).
  { induction l as [|p l IH]; constructor;
      [apply part_of_TrimSpace | exact IH]. }
  split; apply H.
Qed.

(** ** [TrimSpace] leaves no ASCII white byte at either end *)

Lemma asciiSpace_cases (b : N) :
  asciiSpace b = true ->
  (b = 9 \/ b = 10 \/ b = 11 \/ b = 12 \/ b = 13 \/ b = 32)%N.
Proof.
  unfold asciiSpace. rewrite !orb_true_iff, !N.eqb_eq. tauto.
Qed.

Lemma asciiSpace_high (b : N) :
  (RuneSelf <=? b)%N = true -> asciiSpace b = false.
Proof.
  intros H. apply N.leb_le in H. unfold RuneSelf in H.
  destruct (asciiSpace b) eqn:Hb; [|reflexivity].
  apply asciiSpace_cases in Hb. lia.
Qed.

Lemma asciiSpace_IsSpace (b : N) : IsSpace b = false -> asciiSpace b = false.
Proof.
  intros H. destruct (asciiSpace b) eqn:Hb; [|reflexivity].
  unfold IsSpace in H. rewrite Hb in H.
  apply asciiSpace_cases in Hb.
  destruct Hb as [-> | [-> | [-> | [-> | [-> | ->]]]]]; discriminate H.
Qed.

Lemma first_cases (b : N) :
  match first b with
  | first_as => (b <? RuneSelf)%N = true
  | first_xx => (RuneSelf <=? b)%N = true
  | first_lead sz lo hi =>
      (RuneSelf <=? b)%N = true /\ (RuneSelf <=? lo)%N = true /\
      (sz = 2 \/ sz = 3 \/ sz = 4)
  end.
Proof.
  unfold first, RuneSelf.
  destruct (b <? 0x80)%N eqn:H0; [reflexivity|].
  assert (Hb : (0x80 <=? b)%N = true)
    by (apply N.leb_le; apply N.ltb_ge in H0; exact H0).
  repeat match goal with
         | |- context [if ?c then _ else _] => destruct c
         end; auto 10.
Qed.

Lemma byte_at_0 (c : ascii) (s : string) : byte_at (String c s) 0 = byte c.
Proof. reflexivity. Qed.

Lemma byte_at_S (c : ascii) (s : string) (n : nat) :
  byte_at (String c s) (S n) = byte_at s n.
Proof. reflexivity. Qed.

Lemma range_low (x lo hi : N) :
  ((x <? lo) || (hi <? x))%N = false -> (RuneSelf <=? lo)%N = true ->
  (RuneSelf <=? x)%N = true.
Proof.
  intros H Hlo. apply orb_false_iff in H. destruct H as [H _].
  apply N.ltb_ge in H. apply N.leb_le in Hlo. apply N.leb_le. lia.
Qed.

(** The width [DecodeRuneInString] gives for a string that is not empty
    lies within the string; an ASCII byte decodes to itself, and a
    sequence that starts with another byte ends with such a byte. *)
Lemma DecodeRuneInString_width (c : ascii) (u : string) :
  1 <= snd (DecodeRuneInString (String c u)) <= String.length (String c u) /\
  ((byte c <? RuneSelf)%N = true ->
   DecodeRuneInString (String c u) = (byte c, 1)) /\
  ((RuneSelf <=? byte c)%N = true ->
   (RuneSelf <=? byte_at (String c u)
                   (snd (DecodeRuneInString (String c u)) - 1))%N = true).
Proof.
  pose proof (first_cases (byte c)) as Hf.
  assert (Hlocb : (RuneSelf <=? locb)%N = true) by reflexivity.
  unfold DecodeRuneInString.
  destruct (first (byte c)) as [| |sz lo hi].
  - cbn. repeat split; try lia.
    intros H. apply N.ltb_lt in Hf. apply N.leb_le in H. lia.
  - cbn. repeat split; try lia; auto.
    intros H. apply N.ltb_lt in H. apply N.leb_le in Hf. lia.
  - destruct Hf as [Hb [Hlo Hsz]].
    assert (Hnot : (byte c <? RuneSelf)%N = true -> False).
    { intros H. apply N.ltb_lt in H. apply N.leb_le in Hb. lia. }
    destruct (Nat.ltb (String.length (String c u)) sz) eqn:Hlen.
    { cbn. repeat split; try lia; auto. intros H. destruct (Hnot H). }
    apply Nat.ltb_ge in Hlen. cbn [String.length] in Hlen.
    destruct u as [|c1 u].
    { cbn. repeat split; try lia; auto. intros H. destruct (Hnot H). }
    destruct ((byte c1 <? lo) || (hi <? byte c1))%N eqn:H1.
    { cbn. repeat split; try lia; auto. intros H. destruct (Hnot H). }
    pose proof (range_low _ _ _ H1 Hlo) as R1.
    destruct (Nat.leb sz 2) eqn:Hsz2.
    { cbn. repeat split; try lia; auto. intros H. destruct (Hnot H). }
    destruct u as [|c2 u].
    { cbn. repeat split; try lia; auto. intros H. destruct (Hnot H). }
    destruct ((byte c2 <? locb) || (hicb <? byte c2))%N eqn:H2.
    { cbn. repeat split; try lia; auto. intros H. destruct (Hnot H). }
    pose proof (range_low _ _ _ H2 Hlocb) as R2.
    destruct (Nat.leb sz 3) eqn:Hsz3.
    { cbn. repeat split; try lia; auto. intros H. destruct (Hnot H). }
    destruct u as [|c3 u].
    { cbn. repeat split; try lia; auto. intros H. destruct (Hnot H). }
    destruct ((byte c3 <? locb) || (hicb <? byte c3))%N eqn:H3.
    { cbn. repeat split; try lia; auto. intros H. destruct (Hnot H). }
    pose proof (range_low _ _ _ H3 Hlocb) as R3.
    cbn. repeat split; try lia; auto. intros H. destruct (Hnot H).
Qed.

Lemma head_white_starts (s t : string) :
  starts s t -> head_white s = false -> head_white t = false.
Proof.
  intros [post ->] H. destruct t; [reflexivity | exact H].
Qed.

Lemma head_white_decoded (t : string) :
  IsSpace (fst (DecodeRuneInString t)) = false -> head_white t = false.
Proof.
  destruct t as [|c u]; [reflexivity|]. cbn [head_white]. intros H.
  destruct (asciiSpace (byte c)) eqn:Hc; [|reflexivity].
  assert (Hlow : (byte c <? RuneSelf)%N = true).
  { apply asciiSpace_cases in Hc. apply N.ltb_lt. unfold RuneSelf. lia. }
  rewrite (proj1 (proj2 (DecodeRuneInString_width c u)) Hlow) in H.
  cbn [fst] in H. apply asciiSpace_IsSpace in H. congruence.
Qed.

(** The rune at the index [indexFunc] returns does not satisfy [f]. *)
Lemma indexFunc_from_found (f : N -> bool) (s : string) :
  forall i skip j,
    indexFunc_from s i skip f false = Some j ->
    i <= j /\
    f (fst (DecodeRuneInString (slice_from (j - i) s))) = false.
Proof.
  induction s as [|c s IH]; intros i skip j H; [discriminate|].
  cbn [indexFunc_from] in H. destruct skip as [|k].
  - destruct (DecodeRuneInString (String c s)) as [r size] eqn:Hd.
    destruct (Bool.eqb (f r) false) eqn:Hr.
    + injection H as <-. split; [lia|]. rewrite Nat.sub_diag.
      cbn [slice_from]. rewrite Hd. cbn [fst].
      apply Bool.eqb_prop in Hr. exact Hr.
    + apply IH in H. destruct H as [Hle H]. split; [lia|].
      replace (j - i) with (S (j - S i)) by lia. exact H.
  - apply IH in H. destruct H as [Hle H]. split; [lia|].
    replace (j - i) with (S (j - S i)) by lia. exact H.
Qed.

Lemma head_white_TrimLeftFunc (s : string) :
  head_white (TrimLeftFunc s IsSpace) = false.
Proof.
  unfold TrimLeftFunc, indexFunc.
  destruct (indexFunc_from s 0 0 IsSpace false) as [j|] eqn:H; [|reflexivity].
  apply indexFunc_from_found in H. destruct H as [_ H].
  rewrite Nat.sub_0_r in H. apply head_white_decoded. exact H.
Qed.

Lemma list_ascii_of_string_app (a b : string) :
  list_ascii_of_string (a ++ b)
  = (list_ascii_of_string a ++ list_ascii_of_string b)%list.
Proof.
  induction a as [|x a IH]; cbn; [reflexivity | rewrite IH; reflexivity].
Qed.

Lemma last_white_app_char (s : string) (c : ascii) :
  last_white (s ++ String c "") = asciiSpace (byte c).
Proof.
  unfold last_white. rewrite list_ascii_of_string_app, rev_app_distr.
  reflexivity.
Qed.

Lemma byte_char_at (s : string) (i : nat) : byte (char_at s i) = byte_at s i.
Proof.
  unfold char_at, byte_at. destruct (String.get i s); reflexivity.
Qed.

(** The last byte of [s[:n+1]] is [s[n]]. *)
Lemma last_white_slice_to (s : string) (n : nat) :
  n < String.length s ->
  last_white (slice_to (S n) s) = asciiSpace (byte_at s n).
Proof.
  intros Hn. rewrite slice_to_S by exact Hn.
  rewrite last_white_app_char, byte_char_at. reflexivity.
Qed.

Lemma byte_at_slice_from (s : string) (i j : nat) :
  byte_at (slice_from i s) j = byte_at s (i + j).
Proof.
  revert i. induction s as [|c s IH]; intros [|i]; try reflexivity.
  cbn [slice_from Nat.add]. rewrite byte_at_S. apply IH.
Qed.

Lemma slice_from_length (s : string) (i : nat) :
  String.length (slice_from i s) = String.length s - i.
Proof.
  revert i. induction s as [|c s IH]; intros [|i]; try reflexivity.
  cbn [slice_from String.length Nat.sub]. apply IH.
Qed.

Lemma byte_at_app_l (p q : string) (i : nat) :
  i < String.length p -> byte_at (p ++ q) i = byte_at p i.
Proof.
  revert i. induction p as [|c p IH]; intros i Hi; cbn in Hi; [lia|].
  destruct i as [|i]; [reflexivity|].
  cbn [String.append]. rewrite !byte_at_S. apply IH. lia.
Qed.

Lemma lastRuneStart_le (n : nat) (s : string) (start : Z) :
  (lastRuneStart n s start <= start)%Z.
Proof.
  revert start. induction n as [|n IH]; intros start; cbn; [lia|].
  destruct (RuneStart _); [lia|]. specialize (IH (start - 1)%Z). lia.
Qed.

(** The width [DecodeLastRuneInString] gives for a string that is not
    empty lies within the string, and when the byte the rune starts at is
    an ASCII byte the rune is that byte. *)
Lemma DecodeLastRuneInString_width (p : string) :
  p <> "" ->
  1 <= snd (DecodeLastRuneInString p) <= String.length p /\
  ((byte_at p (String.length p - snd (DecodeLastRuneInString p))
    <? RuneSelf)%N = true ->
   fst (DecodeLastRuneInString p)
   = byte_at p (String.length p - snd (DecodeLastRuneInString p))).
Proof.
  intros Hp. unfold DecodeLastRuneInString.
  assert (HL : 1 <= String.length p) by (destruct p; [congruence | cbn; lia]).
  destruct (Nat.eqb (String.length p) 0) eqn:H0;
    [apply Nat.eqb_eq in H0; lia|].
  destruct (byte_at p (String.length p - 1) <? RuneSelf)%N eqn:Hlast.
  { cbn [fst snd]. split; [lia | reflexivity]. }
  set (lim := Z.max 0 (Z.of_nat (String.length p) - Z.of_nat UTFMax)).
  set (start0 := (Z.of_nat (String.length p) - 2)%Z).
  set (zstart := lastRuneStart (Z.to_nat (start0 - lim + 1)) p start0).
  assert (Hz : (zstart <= start0)%Z) by apply lastRuneStart_le.
  set (start := if (zstart <? 0)%Z then 0 else Z.to_nat zstart).
  assert (Hstart : start < String.length p).
  { unfold start, start0 in *. destruct (zstart <? 0)%Z; lia. }
  destruct (slice_from start p) as [|c u] eqn:Hslice.
  { apply (f_equal String.length) in Hslice.
    rewrite slice_from_length in Hslice. cbn in Hslice. lia. }
  pose proof (DecodeRuneInString_width c u) as [Hw [Hascii _]].
  assert (Hc : byte c = byte_at p start).
  { rewrite <- (Nat.add_0_r start), <- byte_at_slice_from, Hslice.
    reflexivity. }
  assert (Hlen : String.length (String c u) = String.length p - start)
    by (rewrite <- Hslice; apply slice_from_length).
  destruct (DecodeRuneInString (String c u)) as [r size] eqn:Hd.
  cbn [snd] in Hw.
  destruct (Nat.eqb (start + size) (String.length p)) eqn:Hend.
  - apply Nat.eqb_eq in Hend. cbn [fst snd]. split; [lia|].
    replace (String.length p - size) with start by lia.
    rewrite <- Hc. intros Hlow. specialize (Hascii Hlow).
    injection Hascii as -> _. reflexivity.
  - cbn [fst snd]. split; [lia|]. rewrite Hlast. discriminate.
Qed.

(** The index [lastIndexFunc] returns is where the last rune of some
    start of the string begins, a rune that does not satisfy [f]. *)
Lemma lastIndexFunc_rev_found (f : N -> bool) (rs : list ascii) :
  forall skip i,
    lastIndexFunc_rev rs skip f false = Some i ->
    exists dropped rs1,
      rs = (dropped ++ rs1)%list /\ rs1 <> [] /\
      f (fst (DecodeLastRuneInString (string_of_list_ascii (rev rs1))))
      = false /\
      i = List.length rs1
          - snd (DecodeLastRuneInString (string_of_list_ascii (rev rs1))).
Proof.
  induction rs as [|c rs IH]; intros skip i H; [discriminate|].
  cbn [lastIndexFunc_rev] in H. destruct skip as [|k].
  - destruct (DecodeLastRuneInString (string_of_list_ascii (rev (c :: rs))))
      as [r size] eqn:Hd.
    destruct (Bool.eqb (f r) false) eqn:Hr.
    + injection H as <-. exists [], (c :: rs).
      rewrite Hd. cbn [fst snd]. apply Bool.eqb_prop in Hr.
      repeat split; auto. discriminate.
    + apply IH in H. destruct H as [dropped [rs1 [-> H]]].
      exists (c :: dropped), rs1. split; [reflexivity | exact H].
  - apply IH in H. destruct H as [dropped [rs1 [-> H]]].
    exists (c :: dropped), rs1. split; [reflexivity | exact H].
Qed.

Lemma string_of_list_ascii_length (l : list ascii) :
  String.length (string_of_list_ascii l) = List.length l.
Proof.
  induction l as [|c l IH]; cbn; [reflexivity | rewrite IH; reflexivity].
Qed.

Lemma last_white_TrimRightFunc (t : string) :
  last_white (TrimRightFunc t IsSpace) = false.
Proof.
  unfold TrimRightFunc, lastIndexFunc.
  destruct (lastIndexFunc_rev (rev (list_ascii_of_string t)) 0 IsSpace false)
    as [i|] eqn:H; [|reflexivity].
  apply lastIndexFunc_rev_found in H.
  destruct H as [dropped [rs1 [Hrs [Hne [Hf Hi]]]]].
  set (p := string_of_list_ascii (rev rs1)) in *.
  assert (Ht : t = p ++ string_of_list_ascii (rev dropped)).
  { rewrite <- (string_of_rev_rev t), Hrs, rev_app_distr.
    apply string_of_list_ascii_app. }
  assert (Hlenp : String.length p = List.length rs1).
  { unfold p. rewrite string_of_list_ascii_length. apply length_rev. }
  assert (Hp : p <> "").
  { intros Hp. apply (f_equal String.length) in Hp. rewrite Hlenp in Hp.
    destruct rs1; [congruence | discriminate]. }
  pose proof (DecodeLastRuneInString_width p Hp) as [Hw Hascii].
  rewrite Hlenp, <- Hi in Hascii.
  assert (Hip : i < String.length p) by lia.
  assert (Hit : i < String.length t)
    by (rewrite Ht, string_length_app; lia).
  assert (Hbyte : byte_at t i = byte_at p i)
    by (rewrite Ht; apply byte_at_app_l; exact Hip).
  destruct (RuneSelf <=? byte_at t i)%N eqn:Hhigh.
  - destruct (slice_from i t) as [|c u] eqn:Hslice.
    { apply (f_equal String.length) in Hslice.
      rewrite slice_from_length in Hslice. cbn in Hslice. lia. }
    pose proof (DecodeRuneInString_width c u) as [Hwid [_ Hend]].
    assert (Hc : byte c = byte_at t i).
    { rewrite <- (Nat.add_0_r i), <- byte_at_slice_from, Hslice.
      reflexivity. }
    rewrite Hc in Hend. specialize (Hend Hhigh).
    assert (Hlen : String.length (String c u) = String.length t - i)
      by (rewrite <- Hslice; apply slice_from_length).
    set (wid := snd (DecodeRuneInString (String c u))) in *.
    replace (i + wid) with (S (i + (wid - 1))) by lia.
    rewrite last_white_slice_to by lia.
    rewrite <- byte_at_slice_from, Hslice.
    apply asciiSpace_high. exact Hend.
  - replace (i + 1) with (S i) by lia.
    rewrite last_white_slice_to by exact Hit.
    rewrite Hbyte. apply asciiSpace_IsSpace.
    rewrite <- Hascii; [exact Hf|].
    rewrite <- Hbyte. apply N.ltb_lt. apply N.leb_gt in Hhigh. exact Hhigh.
Qed.

Lemma last_white_TrimSpace_stop (rs : list ascii) :
  last_white (TrimSpace_stop rs) = false.
Proof.
  induction rs as [|c rs IH]; cbn [TrimSpace_stop]; [reflexivity|].
  destruct (RuneSelf <=? byte c)%N; [apply last_white_TrimRightFunc|].
  destruct (asciiSpace (byte c)) eqn:Hc; [exact IH|].
  cbn [rev]. rewrite string_of_list_ascii_app. cbn [string_of_list_ascii].
  rewrite last_white_app_char. exact Hc.
Qed.

(** [TrimSpace] gives a string with no ASCII white byte at its start and
    none at its end. *)
Lemma TrimSpace_ends (s : string) :
  head_white (TrimSpace s) = false /\ last_white (TrimSpace s) = false.
Proof.
  induction s as [|c s IH]; cbn [TrimSpace]; [split; reflexivity|].
  destruct (RuneSelf <=? byte c)%N.
  - unfold TrimFunc. split; [|apply last_white_TrimRightFunc].
    eapply head_white_starts; [apply starts_TrimRightFunc|].
    apply head_white_TrimLeftFunc.
  - destruct (asciiSpace (byte c)) eqn:Hc; [exact IH|].
    split; [|apply last_white_TrimSpace_stop].
    apply (head_white_starts (String c s)); [|exact Hc].
    rewrite <- (string_of_rev_rev (String c s)) at 1.
    apply starts_TrimSpace_stop.
Qed.

(** X18.  After [Set] on a tags or architecture flag no element begins or
    ends with an ASCII white byte (tab, line feed, vertical tab, form
    feed, carriage return, space), whatever the raw argument, bytes that
    are not valid UTF-8 included. *)
Theorem trimmed_elements_have_no_white_ends (value : string)
  (prior : list string) :
  Forall (fun v => head_white v = false /\ last_white v = false)
         (fst (tagsFlag_Set value prior)) /\
  Forall (fun v => head_white v = false /\ last_white v = false)
         (fst (targetArchFlag_Set value prior)).
Proof.
  rewrite targetArchFlag_Set_eq, tagsFlag_Set_eq. cbn [fst].
  assert (H : forall l,
             Forall (fun v => head_white v = false /\ last_white v = false)
                    (map TrimSpace l)).
  { intros l. apply Forall_map. apply Forall_forall. intros p _.
    apply TrimSpace_ends. }
  split; apply H.
Qed.

Lemma Split_pieces_ascii (s : string) (sep : ascii) :
  isASCII (list_ascii_of_string s) = true ->
  Forall (fun p => isASCII (list_ascii_of_string p) = true) (Split s sep).
Proof.
  induction s as [|c s IH]; intros Hs.
  - repeat constructor.
  - cbn [list_ascii_of_string isASCII forallb] in Hs.
    apply andb_true_iff in Hs. destruct Hs as [Hc Hs]. specialize (IH Hs).
    destruct (Ascii.eqb c sep) eqn:Hsep.
    + apply Ascii.eqb_eq in Hsep. subst c. rewrite Split_sep.
      constructor; [reflexivity | exact IH].
    + rewrite (Split_other _ _ _ Hsep).
      destruct (Split s sep) as [|p ps] eqn:Hp.
      * exfalso. exact (Split_not_nil _ _ Hp).
      * inversion IH as [|? ? Hp1 Hps]; subst. constructor; [|exact Hps].
        cbn [list_ascii_of_string isASCII forallb]. rewrite Hc. exact Hp1.
Qed.

(** X19.  For a raw argument of ASCII bytes, the tags and architecture
    variants store each comma-split piece with the white bytes at its
    front and at its back dropped, and nothing else changed. *)
Theorem ascii_Set_trims_exactly (value : string) (prior : list string) :
  isASCII (list_ascii_of_string value) = true ->
  fst (tagsFlag_Set value prior) = map trim_ascii (Split value ","%char) /\
  fst (targetArchFlag_Set value prior)
  = map trim_ascii (Split value ","%char).
Proof.
  intros Hv. rewrite targetArchFlag_Set_eq, tagsFlag_Set_eq. cbn [fst].
  assert (H : map TrimSpace (Split value ","%char)
              = map trim_ascii (Split value ","%char)).
  { apply map_ext_in. intros p Hin. apply TrimSpace_ascii.
    pose proof (Split_pieces_ascii value ","%char Hv) as Hall.
    rewrite Forall_forall in Hall. apply Hall. exact Hin. }
  split; exact H.
Qed.

Lemma ascii_Set_trims_exactly_witness :
  fst (tagsFlag_Set "  a b ,c" ["x"]) = map trim_ascii (Split "  a b ,c" ","%char).
Proof.
  exact (proj1 (ascii_Set_trims_exactly "  a b ,c" ["x"] eq_refl)).
Defined.

(** X20.  Calls of [Set] on one env flag do not add up: after a sequence
    of calls the destination and the error are those of the last call
    alone, made on an empty destination. *)
Theorem env_last_Set_wins (values : list string) (value : string)
  (prior : envFlag) (last : option error) :
  envFlag_Sets (values ++ [value]) prior last = envFlag_Set value [].
Proof.
  revert prior last. induction values as [|v values IH]; intros prior last.
  - cbn [app envFlag_Sets]. rewrite (envFlag_Set_eq value prior).
    rewrite (envFlag_Set_eq value []). reflexivity.
  - cbn [app envFlag_Sets]. destruct (envFlag_Set v prior) as [ef' err].
    apply IH.
Qed.

(** ** [TrimSpace] takes away the white space at both ends and nothing
    else *)

Lemma first_continuation (b : N) :
  (RuneSelf <=? b)%N = true -> (b <=? hicb)%N = true -> first b = first_xx.
Proof.
  unfold RuneSelf, hicb, first. intros H1 H2.
  apply N.leb_le in H1. apply N.leb_le in H2.
  destruct (b <? 0x80)%N eqn:H3; [apply N.ltb_lt in H3; lia|].
  destruct (b <? 0xC2)%N eqn:H4; [reflexivity|].
  apply N.ltb_ge in H4. lia.
Qed.

Lemma first_lead_hi (b : N) (sz : nat) (lo hi : N) :
  first b = first_lead sz lo hi -> (hi <=? hicb)%N = true.
Proof.
  unfold first.
  repeat match goal with
         | |- context [if ?c then _ else _] => destruct c
         end; intros H; try discriminate H; injection H as <- <- <-;
    reflexivity.
Qed.

Lemma IsSpace_RuneError : IsSpace RuneError = false.
Proof. reflexivity. Qed.

(** A rune read with a width of two or more, or a white space rune, is
    read from the bytes of its width alone: what follows them does not
    matter. *)
Lemma DecodeRuneInString_stable (s : string) (r : N) (w : nat) :
  DecodeRuneInString s = (r, w) ->
  2 <= w \/ IsSpace r = true ->
  forall rest, DecodeRuneInString (slice_to w s ++ rest) = (r, w).
Proof.
  assert (Hbad : forall r' w', (RuneError, 1) = (r', w') ->
                   2 <= w' \/ IsSpace r' = true -> False).
  { intros r' w' H [Hw | Hr]; injection H as <- <-; [lia | discriminate]. }
  destruct s as [|c u].
  { cbn. intros H [Hw | Hr]; injection H as <- <-; [lia | discriminate]. }
  pose proof (first_cases (byte c)) as Hf.
  unfold DecodeRuneInString at 1.
  destruct (first (byte c)) as [| |sz lo hi] eqn:Hfc.
  - intros H _ rest. injection H as <- <-. cbn [slice_to String.append].
    unfold DecodeRuneInString. rewrite Hfc. reflexivity.
  - intros H Hv. destruct (Hbad _ _ H Hv).
  - destruct Hf as [_ [_ Hsz]].
    destruct (Nat.ltb (String.length (String c u)) sz) eqn:Hlen.
    { intros H Hv. destruct (Hbad _ _ H Hv). }
    destruct u as [|c1 u].
    { intros H Hv. destruct (Hbad _ _ H Hv). }
    destruct ((byte c1 <? lo) || (hi <? byte c1))%N eqn:H1.
    { intros H Hv. destruct (Hbad _ _ H Hv). }
    destruct (Nat.leb sz 2) eqn:Hsz2.
    { intros H _ rest. injection H as <- <-.
      assert (sz = 2) by (apply Nat.leb_le in Hsz2; lia). subst sz.
      cbn [slice_to String.append]. unfold DecodeRuneInString.
      rewrite Hfc, H1. reflexivity. }
    destruct u as [|c2 u].
    { intros H Hv. destruct (Hbad _ _ H Hv). }
    destruct ((byte c2 <? locb) || (hicb <? byte c2))%N eqn:H2.
    { intros H Hv. destruct (Hbad _ _ H Hv). }
    destruct (Nat.leb sz 3) eqn:Hsz3.
    { intros H _ rest. injection H as <- <-.
      assert (sz = 3)
        by (apply Nat.leb_le in Hsz3; apply Nat.leb_gt in Hsz2; lia).
      subst sz.
      cbn [slice_to String.append]. unfold DecodeRuneInString.
      rewrite Hfc, H1, H2. reflexivity. }
    destruct u as [|c3 u].
    { intros H Hv. destruct (Hbad _ _ H Hv). }
    destruct ((byte c3 <? locb) || (hicb <? byte c3))%N eqn:H3.
    { intros H Hv. destruct (Hbad _ _ H Hv). }
    intros H _ rest. injection H as <- <-.
    assert (sz = 4) by (apply Nat.leb_gt in Hsz3; lia). subst sz.
    cbn [slice_to String.append]. unfold DecodeRuneInString.
    rewrite Hfc, H1, H2, H3. reflexivity.
Qed.

Lemma white_run_app (a b : string) :
  white_run a -> white_run b -> white_run (a ++ b).
Proof.
  induction 1 as [|e s r He Hd Hr _ IH]; intros Hb; [exact Hb|].
  rewrite string_app_assoc. apply (white_run_rune e (s ++ b) r); auto.
Qed.

Lemma white_run_one (e : string) (r : N) :
  e <> "" -> DecodeRuneInString e = (r, String.length e) ->
  IsSpace r = true -> white_run e.
Proof.
  intros He Hd Hr. rewrite <- (string_app_nil_r e).
  apply (white_run_rune e "" r); auto. constructor.
Qed.

Lemma asciiSpace_is_space (b : N) : asciiSpace b = true -> IsSpace b = true.
Proof.
  intros H. apply asciiSpace_cases in H.
  destruct H as [-> | [-> | [-> | [-> | [-> | ->]]]]]; reflexivity.
Qed.

Lemma asciiSpace_low (b : N) :
  asciiSpace b = true -> (b <? RuneSelf)%N = true.
Proof.
  intros H. apply asciiSpace_cases in H. apply N.ltb_lt. unfold RuneSelf.
  lia.
Qed.

(** An ASCII byte that is not white is not a white space rune. *)
Lemma ascii_not_space (b : N) :
  (b <? RuneSelf)%N = true -> asciiSpace b = false -> IsSpace b = false.
Proof.
  intros Hlow Hb. apply N.ltb_lt in Hlow. unfold RuneSelf in Hlow.
  unfold IsSpace. rewrite Hb.
  destruct (b <=? 0xFF)%N eqn:H1; [|apply N.leb_gt in H1; lia].
  destruct (b =? 0x85)%N eqn:H2; [apply N.eqb_eq in H2; lia|].
  destruct (b =? 0xA0)%N eqn:H3; [apply N.eqb_eq in H3; lia|].
  reflexivity.
Qed.

Lemma white_run_ascii (c : ascii) :
  asciiSpace (byte c) = true -> white_run (String c "").
Proof.
  intros H. apply (white_run_one _ (byte c)).
  - discriminate.
  - apply (proj1 (proj2 (DecodeRuneInString_width c ""))).
    apply asciiSpace_low. exact H.
  - apply asciiSpace_is_space. exact H.
Qed.

(** A white run is empty or begins with a byte that is not a
    continuation byte. *)
Lemma white_run_head (y : string) :
  white_run y ->
  match y with
  | "" => True
  | String c _ =>
      (byte c <? RuneSelf)%N = true \/ (hicb <? byte c)%N = true
  end.
Proof.
  induction 1 as [|e s r He Hd Hr _ IH]; [exact I|].
  destruct e as [|c e]; [congruence|]. cbn [String.append].
  destruct (byte c <? RuneSelf)%N eqn:Hlow; [left; reflexivity|].
  right. destruct (hicb <? byte c)%N eqn:Hhi; [reflexivity|].
  exfalso.
  assert (Hx : first (byte c) = first_xx).
  { apply first_continuation.
    - apply N.leb_le. apply N.ltb_ge in Hlow. exact Hlow.
    - apply N.leb_le. apply N.ltb_ge in Hhi. exact Hhi. }
  unfold DecodeRuneInString in Hd. rewrite Hx in Hd.
  injection Hd as <- _. discriminate Hr.
Qed.

(** A byte that is not ASCII, followed by a white run, is read with
    width one. *)
Lemma DecodeRuneInString_before_white (b : ascii) (y : string) :
  (RuneSelf <=? byte b)%N = true -> white_run y ->
  snd (DecodeRuneInString (String b y)) = 1.
Proof.
  intros Hb Hy. pose proof (white_run_head y Hy) as Hhead.
  pose proof (first_cases (byte b)) as Hf.
  unfold DecodeRuneInString.
  destruct (first (byte b)) as [| |sz lo hi] eqn:Hfb; try reflexivity.
  destruct Hf as [_ [Hlo _]]. pose proof (first_lead_hi _ _ _ _ Hfb) as Hhi.
  destruct (Nat.ltb (String.length (String b y)) sz); [reflexivity|].
  destruct y as [|c1 y]; [reflexivity|].
  assert (H1 : ((byte c1 <? lo) || (hi <? byte c1))%N = true).
  { apply orb_true_iff. apply N.leb_le in Hlo. apply N.leb_le in Hhi.
    unfold RuneSelf, hicb in *.
    destruct Hhead as [H | H]; [left | right]; apply N.ltb_lt;
      apply N.ltb_lt in H; lia. }
  rewrite H1. reflexivity.
Qed.

Lemma slice_to_all (s : string) : slice_to (String.length s) s = s.
Proof.
  induction s as [|c s IH]; cbn; [reflexivity | rewrite IH; reflexivity].
Qed.

Lemma slice_to_app (a b : string) : slice_to (String.length a) (a ++ b) = a.
Proof.
  induction a as [|c a IH]; cbn; [destruct b; reflexivity|].
  rewrite IH. reflexivity.
Qed.

Lemma slice_from_app (a b : string) :
  slice_from (String.length a) (a ++ b) = b.
Proof.
  induction a as [|c a IH]; cbn; [reflexivity | exact IH].
Qed.

(** [s[n:]] for the last index [n] is the last byte. *)
Lemma slice_from_last (s : string) :
  s <> "" ->
  exists c, slice_from (String.length s - 1) s = String c "" /\
            byte c = byte_at s (String.length s - 1).
Proof.
  intros Hs.
  assert (HL : 1 <= String.length s) by (destruct s; [congruence | cbn; lia]).
  destruct (slice_from (String.length s - 1) s) as [|c u] eqn:H.
  - apply (f_equal String.length) in H. rewrite slice_from_length in H.
    cbn [String.length] in H. lia.
  - assert (Hu : u = "").
    { apply (f_equal String.length) in H. rewrite slice_from_length in H.
      destruct u; [reflexivity|]. cbn [String.length] in H. lia. }
    subst u. exists c. split; [reflexivity|].
    rewrite <- (Nat.add_0_r (String.length s - 1)), <- byte_at_slice_from, H.
    reflexivity.
Qed.

(** The three ways [DecodeLastRuneInString] answers on a string that is
    not empty: its last byte when that is ASCII; the rune read at the
    start it found, when that rune reaches the end; [RuneError] with
    width one otherwise. *)
Lemma DecodeLastRuneInString_cases (p : string) :
  p <> "" ->
  1 <= snd (DecodeLastRuneInString p) <= String.length p /\
  ((byte_at p (String.length p - 1) <? RuneSelf)%N = true /\
   DecodeLastRuneInString p = (byte_at p (String.length p - 1), 1)
   \/
   (byte_at p (String.length p - 1) <? RuneSelf)%N = false /\
   DecodeRuneInString
     (slice_from (String.length p - snd (DecodeLastRuneInString p)) p)
   = DecodeLastRuneInString p
   \/
   (byte_at p (String.length p - 1) <? RuneSelf)%N = false /\
   DecodeLastRuneInString p = (RuneError, 1)).
Proof.
  intros Hp. unfold DecodeLastRuneInString.
  assert (HL : 1 <= String.length p) by (destruct p; [congruence | cbn; lia]).
  destruct (Nat.eqb (String.length p) 0) eqn:H0;
    [apply Nat.eqb_eq in H0; lia|].
  destruct (byte_at p (String.length p - 1) <? RuneSelf)%N eqn:Hlast.
  { cbn [fst snd]. split; [lia|]. left. auto. }
  set (lim := Z.max 0 (Z.of_nat (String.length p) - Z.of_nat UTFMax)).
  set (start0 := (Z.of_nat (String.length p) - 2)%Z).
  set (zstart := lastRuneStart (Z.to_nat (start0 - lim + 1)) p start0).
  assert (Hz : (zstart <= start0)%Z) by apply lastRuneStart_le.
  set (start := if (zstart <? 0)%Z then 0 else Z.to_nat zstart).
  assert (Hstart : start < String.length p).
  { unfold start, start0 in *. destruct (zstart <? 0)%Z; lia. }
  destruct (slice_from start p) as [|c u] eqn:Hslice.
  { apply (f_equal String.length) in Hslice.
    rewrite slice_from_length in Hslice. cbn in Hslice. lia. }
  pose proof (DecodeRuneInString_width c u) as [Hw _].
  destruct (DecodeRuneInString (String c u)) as [r size] eqn:Hd.
  cbn [snd] in Hw.
  destruct (Nat.eqb (start + size) (String.length p)) eqn:Hend.
  - apply Nat.eqb_eq in Hend. cbn [fst snd]. split; [lia|].
    right. left. split; [reflexivity|].
    replace (String.length p - size) with start by lia.
    rewrite Hslice. exact Hd.
  - cbn [fst snd]. split; [lia|]. right. right. auto.
Qed.

Lemma indexFunc_from_skip (f : N -> bool) (truth : bool) (s : string) :
  forall i k,
    indexFunc_from s i k f truth
    = indexFunc_from (slice_from k s) (i + k) 0 f truth.
Proof.
  induction s as [|c s IH]; intros i k.
  - destruct k; reflexivity.
  - destruct k as [|k].
    + cbn [slice_from]. rewrite Nat.add_0_r. reflexivity.
    + cbn [indexFunc_from slice_from]. rewrite IH.
      replace (S i + k) with (i + S k) by lia. reflexivity.
Qed.

Lemma slice_to_add_app (a b : string) (d : nat) :
  slice_to (String.length a + d) (a ++ b) = a ++ slice_to d b.
Proof.
  induction a as [|c a IH]; cbn; [reflexivity | rewrite IH; reflexivity].
Qed.

Lemma slice_from_add_app (a b : string) (d : nat) :
  slice_from (String.length a + d) (a ++ b) = slice_from d b.
Proof.
  induction a as [|c a IH]; cbn; [reflexivity | exact IH].
Qed.

(** What [indexFunc(s, IsSpace, false)] steps over is a white run, and
    the rune it stops at is not white space. *)
Lemma indexFunc_from_white (n : nat) :
  forall s i,
    String.length s <= n ->
    match indexFunc_from s i 0 IsSpace false with
    | Some j =>
        i <= j /\ white_run (slice_to (j - i) s) /\
        IsSpace (fst (DecodeRuneInString (slice_from (j - i) s))) = false
    | None => white_run s
    end.
Proof.
  induction n as [|n IH]; intros s i Hn.
  - destruct s; [constructor | cbn in Hn; lia].
  - destruct s as [|c u]; [constructor|].
    cbn [indexFunc_from].
    pose proof (DecodeRuneInString_width c u) as [Hw _].
    destruct (DecodeRuneInString (String c u)) as [r size] eqn:Hd.
    cbn [snd] in Hw.
    destruct (Bool.eqb (IsSpace r) false) eqn:Hr.
    + apply Bool.eqb_prop in Hr. rewrite Nat.sub_diag.
      cbn [slice_to slice_from]. rewrite Hd.
      repeat split; [lia | constructor | exact Hr].
    + assert (Hsp : IsSpace r = true) by (destruct (IsSpace r); auto; discriminate).
      set (e := slice_to size (String c u)).
      set (s2 := slice_from size (String c u)).
      assert (Hs : String c u = e ++ s2)
        by (symmetry; apply slice_to_from).
      assert (Hlen : String.length e = size)
        by (apply slice_to_length; lia).
      assert (He : e <> "").
      { intros H. rewrite H in Hlen. cbn in Hlen. lia. }
      assert (Hde : DecodeRuneInString e = (r, String.length e)).
      { rewrite Hlen. rewrite <- (string_app_nil_r e).
        apply (DecodeRuneInString_stable _ _ _ Hd). right. exact Hsp. }
      rewrite indexFunc_from_skip.
      replace (slice_from (size - 1) u) with s2
        by (unfold s2; destruct size; [lia|];
            replace (S size - 1) with size by lia; reflexivity).
      assert (Hn2 : String.length s2 <= n).
      { unfold s2. rewrite slice_from_length. cbn [String.length] in *. lia. }
      specialize (IH s2 (S i + (size - 1)) Hn2).
      destruct (indexFunc_from s2 (S i + (size - 1)) 0 IsSpace false)
        as [j|].
      * destruct IH as [Hij [Hrun Hstop]].
        replace (j - (S i + (size - 1))) with (j - i - size) in * by lia.
        split; [lia|]. rewrite Hs.
        replace (j - i) with (String.length e + (j - i - size)) by lia.
        rewrite slice_to_add_app, slice_from_add_app.
        split; [|exact Hstop].
        apply white_run_app; [|exact Hrun].
        apply (white_run_one e r); auto.
      * rewrite Hs. apply white_run_app; [|exact IH].
        apply (white_run_one e r); auto.
Qed.

Lemma TrimLeftFunc_white (s : string) :
  exists pre,
    s = pre ++ TrimLeftFunc s IsSpace /\ white_run pre /\
    IsSpace (fst (DecodeRuneInString (TrimLeftFunc s IsSpace))) = false.
Proof.
  unfold TrimLeftFunc, indexFunc.
  pose proof (indexFunc_from_white (String.length s) s 0 (le_n _)) as H.
  destruct (indexFunc_from s 0 0 IsSpace false) as [j|].
  - destruct H as [_ [Hrun Hstop]]. rewrite Nat.sub_0_r in *.
    exists (slice_to j s). repeat split; auto.
    symmetry. apply slice_to_from.
  - exists s. rewrite string_app_nil_r. repeat split; auto.
Qed.

Lemma lastIndexFunc_rev_skip (f : N -> bool) (truth : bool)
  (rs : list ascii) :
  forall k,
    lastIndexFunc_rev rs k f truth
    = lastIndexFunc_rev (skipn k rs) 0 f truth.
Proof.
  induction rs as [|c rs IH]; intros k.
  - destruct k; reflexivity.
  - destruct k as [|k]; [reflexivity|].
    cbn [lastIndexFunc_rev skipn]. apply IH.
Qed.

(** What [lastIndexFunc(s, IsSpace, false)] steps over from the end is a
    white run, and the rune it stops at is not white space. *)
Lemma lastIndexFunc_rev_white (n : nat) :
  forall rs,
    List.length rs <= n ->
    match lastIndexFunc_rev rs 0 IsSpace false with
    | Some i =>
        exists p y,
          string_of_list_ascii (rev rs) = p ++ y /\ p <> "" /\
          white_run y /\
          IsSpace (fst (DecodeLastRuneInString p)) = false /\
          i = String.length p - snd (DecodeLastRuneInString p)
    | None => white_run (string_of_list_ascii (rev rs))
    end.
Proof.
  induction n as [|n IH]; intros rs Hn.
  - destruct rs; [constructor | cbn in Hn; lia].
  - destruct rs as [|c rs']; [constructor|].
    cbn [lastIndexFunc_rev].
    set (rs := c :: rs') in *.
    set (p0 := string_of_list_ascii (rev rs)).
    assert (Hlen0 : String.length p0 = List.length rs)
      by (unfold p0; rewrite string_of_list_ascii_length; apply length_rev).
    assert (Hp0 : p0 <> "").
    { intros H. rewrite H in Hlen0. discriminate Hlen0. }
    pose proof (DecodeLastRuneInString_cases p0 Hp0) as [Hw Hcases].
    destruct (DecodeLastRuneInString p0) as [r size] eqn:Hd.
    cbn [snd] in Hw, Hcases.
    destruct (Bool.eqb (IsSpace r) false) eqn:Hr.
    + apply Bool.eqb_prop in Hr. exists p0, "".
      rewrite string_app_nil_r, Hd. cbn [fst snd].
      split; [reflexivity|]. split; [exact Hp0|]. split; [constructor|].
      split; [exact Hr | lia].
    + assert (Hsp : IsSpace r = true)
        by (destruct (IsSpace r); auto; discriminate).
      rewrite lastIndexFunc_rev_skip.
      set (rs2 := skipn (size - 1) rs').
      assert (Hrs2 : rs2 = skipn size rs).
      { unfold rs2, rs. destruct size; [lia|].
        replace (S size - 1) with size by lia. reflexivity. }
      set (e := string_of_list_ascii (rev (firstn size rs))).
      set (t2 := string_of_list_ascii (rev rs2)).
      assert (Hp : p0 = t2 ++ e).
      { unfold p0, t2, e. rewrite Hrs2, <- string_of_list_ascii_app,
          <- rev_app_distr, firstn_skipn. reflexivity. }
      assert (Hlen2 : String.length t2 = String.length p0 - size).
      { unfold t2. rewrite string_of_list_ascii_length, length_rev, Hrs2,
          length_skipn. lia. }
      assert (Hlene : String.length e = size).
      { apply (f_equal String.length) in Hp.
        rewrite string_length_app in Hp. lia. }
      assert (He : e <> "").
      { intros H. rewrite H in Hlene. cbn in Hlene. lia. }
      assert (Heq : slice_from (String.length p0 - size) p0 = e).
      { rewrite <- Hlen2, Hp. apply slice_from_app. }
      assert (Hde : DecodeRuneInString e = (r, String.length e)).
      { rewrite Hlene.
        destruct Hcases as [[Hlow H] | [[Hhigh H] | [Hhigh H]]].
        - injection H as Hr1 Hs1.
          destruct (slice_from_last p0 Hp0) as [c0 [Hc0 Hb]].
          rewrite Hs1 in Heq. rewrite <- Heq, Hc0, Hr1, Hs1, <- Hb.
          apply (proj1 (proj2 (DecodeRuneInString_width c0 ""))).
          rewrite Hb. exact Hlow.
        - rewrite <- Heq. exact H.
        - injection H as Hr1 _. rewrite Hr1 in Hsp. discriminate Hsp. }
      assert (Hrun : white_run e) by (apply (white_run_one e r); auto).
      assert (Hn2 : List.length rs2 <= n).
      { rewrite Hrs2, length_skipn. unfold rs in *. cbn [List.length] in *.
        lia. }
      specialize (IH rs2 Hn2). fold t2 in IH.
      destruct (lastIndexFunc_rev rs2 0 IsSpace false) as [i|].
      * destruct IH as [p [y [Ht2 [Hpne [Hy [Hstop Hi]]]]]].
        exists p, (y ++ e). rewrite Hp, Ht2, string_app_assoc.
        repeat split; auto. apply white_run_app; assumption.
      * rewrite Hp. apply white_run_app; assumption.
Qed.

Lemma slice_from_app_l (p y : string) (i : nat) :
  i <= String.length p -> slice_from i (p ++ y) = slice_from i p ++ y.
Proof.
  revert i. induction p as [|c p IH]; intros i Hi.
  - cbn in Hi. replace i with 0 by lia. destruct y; reflexivity.
  - destruct i as [|i]; [reflexivity|]. cbn [String.append slice_from].
    apply IH. cbn in Hi. lia.
Qed.

(** [TrimRightFunc(t, IsSpace)] takes a white run away from the end of
    [t], and what it gives does not end with a white space rune. *)
Lemma TrimRightFunc_white (t : string) :
  exists post,
    t = TrimRightFunc t IsSpace ++ post /\ white_run post /\
    IsSpace (fst (DecodeLastRuneInString (TrimRightFunc t IsSpace))) = false.
Proof.
  unfold TrimRightFunc, lastIndexFunc.
  pose proof (lastIndexFunc_rev_white _ (rev (list_ascii_of_string t))
                (le_n _)) as H.
  rewrite string_of_rev_rev in H.
  destruct (lastIndexFunc_rev (rev (list_ascii_of_string t)) 0 IsSpace false)
    as [i|].
  2:{ exists t. repeat split; auto. }
  destruct H as [p [y [Ht [Hp [Hy [Hstop Hi]]]]]].
  pose proof (DecodeLastRuneInString_cases p Hp) as [Hw Hcases].
  destruct (DecodeLastRuneInString p) as [r size] eqn:Hd.
  cbn [fst snd] in *.
  assert (Hip : i < String.length p) by lia.
  assert (Hbyte : byte_at t i = byte_at p i)
    by (rewrite Ht; apply byte_at_app_l; exact Hip).
  assert (Hslice : slice_from i t = slice_from i p ++ y)
    by (rewrite Ht; apply slice_from_app_l; lia).
  assert (Hxlen : String.length (slice_from i p) = size)
    by (rewrite slice_from_length; lia).
  assert (Hx0 : byte_at (slice_from i p) 0 = byte_at p i)
    by (rewrite byte_at_slice_from, Nat.add_0_r; reflexivity).
  assert (Hcut :
    (if (RuneSelf <=? byte_at t i)%N
     then slice_to (i + snd (DecodeRuneInString (slice_from i t))) t
     else slice_to (i + 1) t) = p).
  { rewrite Hbyte, Hslice.
    destruct (slice_from i p) as [|b u] eqn:Hx; [cbn in Hxlen; lia|].
    rewrite byte_at_0 in Hx0.
    destruct (RuneSelf <=? byte_at p i)%N eqn:Hhigh.
    - assert (Hwid : snd (DecodeRuneInString (String b u ++ y)) = size).
      { destruct Hcases as [[Hlow H] | [[_ H] | [_ H]]].
        - injection H as _ Hs1.
          replace i with (String.length p - 1) in Hhigh by lia.
          apply N.ltb_lt in Hlow. apply N.leb_le in Hhigh. lia.
        - replace (String.length p - size) with i in H by lia.
          rewrite Hx in H.
          destruct (Nat.le_gt_cases 2 size) as [H2 | H1].
          + rewrite <- (slice_to_all (String b u)) at 1.
            rewrite Hxlen.
            rewrite (DecodeRuneInString_stable _ _ _ H (or_introl H2)).
            reflexivity.
          + assert (Hs1 : size = 1) by lia. rewrite Hs1 in *.
            destruct u; [|cbn in Hxlen; lia]. cbn [String.append].
            apply DecodeRuneInString_before_white; [|exact Hy].
            rewrite Hx0. exact Hhigh.
        - injection H as _ Hs1. rewrite Hs1 in *.
          destruct u; [|cbn in Hxlen; lia]. cbn [String.append].
          apply DecodeRuneInString_before_white; [|exact Hy].
          rewrite Hx0. exact Hhigh. }
      rewrite Hwid, Ht. replace (i + size) with (String.length p) by lia.
      apply slice_to_app.
    - assert (Hsize : size = 1).
      { destruct Hcases as [[_ H] | [[_ H] | [_ H]]].
        - injection H as _ Hs1. exact Hs1.
        - replace (String.length p - size) with i in H by lia.
          rewrite Hx in H.
          rewrite (proj1 (proj2 (DecodeRuneInString_width b u))) in H.
          + injection H as _ Hs1. symmetry. exact Hs1.
          + rewrite Hx0. apply N.ltb_lt. apply N.leb_gt in Hhigh.
            exact Hhigh.
        - injection H as _ Hs1. exact Hs1. }
      rewrite Ht. replace (i + 1) with (String.length p) by lia.
      apply slice_to_app. }
  rewrite Hcut. exists y. rewrite Hd. repeat split; auto.
Qed.

(** A string whose first rune is not white space stays so when bytes
    are taken from its end. *)
Lemma not_space_start (mid post : string) :
  IsSpace (fst (DecodeRuneInString (mid ++ post))) = false ->
  IsSpace (fst (DecodeRuneInString mid)) = false.
Proof.
  intros H. destruct (DecodeRuneInString mid) as [r w] eqn:Hd. cbn [fst].
  destruct (IsSpace r) eqn:Hr; [|reflexivity].
  pose proof (DecodeRuneInString_stable _ _ _ Hd (or_intror Hr)
                (slice_from w mid ++ post)) as Hs.
  rewrite <- string_app_assoc, slice_to_from in Hs.
  rewrite Hs in H. cbn [fst] in H. congruence.
Qed.

Lemma TrimFunc_trimmed (s : string) : trimmed s (TrimFunc s IsSpace).
Proof.
  unfold TrimFunc.
  destruct (TrimLeftFunc_white s) as [pre [Hs [Hpre Hstart]]].
  destruct (TrimRightFunc_white (TrimLeftFunc s IsSpace))
    as [post [Ht [Hpost Hend]]].
  exists pre, post. split; [|split; [exact Hpre|split; [exact Hpost|]]].
  - rewrite <- Ht. exact Hs.
  - split; [|exact Hend].
    apply (not_space_start _ post). rewrite <- Ht. exact Hstart.
Qed.

Lemma byte_at_app_end (x : string) (c : ascii) :
  byte_at (x ++ String c "") (String.length x) = byte c.
Proof.
  rewrite <- byte_char_at, char_at_app_end. reflexivity.
Qed.

Lemma DecodeLastRuneInString_ascii_end (x : string) (c : ascii) :
  (byte c <? RuneSelf)%N = true ->
  DecodeLastRuneInString (x ++ String c "") = (byte c, 1).
Proof.
  intros Hc.
  assert (Hp : x ++ String c "" <> "") by (destruct x; discriminate).
  pose proof (DecodeLastRuneInString_cases _ Hp) as [_ H].
  assert (Hlast : byte_at (x ++ String c "")
                    (String.length (x ++ String c "") - 1) = byte c).
  { rewrite string_length_app. cbn [String.length].
    replace (String.length x + 1 - 1) with (String.length x) by lia.
    apply byte_at_app_end. }
  rewrite Hlast in H.
  destruct H as [[_ H] | [[H _] | [H _]]]; [exact H | congruence..].
Qed.

(** The second loop of [TrimSpace] takes a white run away from the end,
    and what it gives does not end with a white space rune. *)
Lemma TrimSpace_stop_white (rs : list ascii) :
  exists post,
    string_of_list_ascii (rev rs) = TrimSpace_stop rs ++ post /\
    white_run post /\
    IsSpace (fst (DecodeLastRuneInString (TrimSpace_stop rs))) = false.
Proof.
  induction rs as [|c rs IH]; cbn [TrimSpace_stop].
  - exists "". repeat split. constructor.
  - destruct (RuneSelf <=? byte c)%N eqn:Hhigh;
      [apply TrimRightFunc_white|].
    assert (Hlow : (byte c <? RuneSelf)%N = true)
      by (apply N.ltb_lt; apply N.leb_gt in Hhigh; exact Hhigh).
    cbn [rev]. rewrite string_of_list_ascii_app.
    cbn [string_of_list_ascii].
    destruct (asciiSpace (byte c)) eqn:Hc.
    + destruct IH as [post [Hx [Hpost Hend]]].
      exists (post ++ String c ""). split; [|split; [|exact Hend]].
      * rewrite Hx. apply string_app_assoc.
      * apply white_run_app; [exact Hpost | apply white_run_ascii; exact Hc].
    + exists "". rewrite string_app_nil_r.
      split; [reflexivity|]. split; [constructor|].
      rewrite (DecodeLastRuneInString_ascii_end _ _ Hlow). cbn [fst].
      apply ascii_not_space; assumption.
Qed.

(** [TrimSpace(s)] is [s] with the white space around it taken away: a
    white run is dropped at each end, and what is left neither begins nor
    ends with a white space rune. *)
Lemma TrimSpace_trimmed (s : string) : trimmed s (TrimSpace s).
Proof.
  induction s as [|c s IH]; cbn [TrimSpace].
  - exists "", "". repeat split; constructor.
  - destruct (RuneSelf <=? byte c)%N eqn:Hhigh; [apply TrimFunc_trimmed|].
    assert (Hlow : (byte c <? RuneSelf)%N = true)
      by (apply N.ltb_lt; apply N.leb_gt in Hhigh; exact Hhigh).
    destruct (asciiSpace (byte c)) eqn:Hc.
    + destruct IH as [pre [post [Hs [Hpre [Hpost Hends]]]]].
      exists (String c pre), post.
      split; [cbn [String.append]; rewrite <- Hs; reflexivity|].
      split; [|split; [exact Hpost | exact Hends]].
      apply (white_run_app (String c "") pre);
        [apply white_run_ascii; exact Hc | exact Hpre].
    + destruct (TrimSpace_stop_white (rev (list_ascii_of_string (String c s))))
        as [post [Hx [Hpost Hend]]].
      rewrite string_of_rev_rev in Hx.
      exists "", post. split; [exact Hx|]. split; [constructor|].
      split; [exact Hpost|]. split; [|exact Hend].
      apply (not_space_start _ post). rewrite <- Hx.
      rewrite (proj1 (proj2 (DecodeRuneInString_width c s)) Hlow).
      cbn [fst]. apply ascii_not_space; assumption.
Qed.

Lemma map_TrimSpace_trimmed (l : list string) :
  Forall2 trimmed l (map TrimSpace l).
Proof.
  induction l as [|p l IH]; constructor;
    [apply TrimSpace_trimmed | exact IH].
Qed.

(** A string with a space left at its end is not what [trimmed] allows. *)
Example trimmed_rejects_white_end : ~ trimmed "a " "a ".
Proof.
  intros [pre [post [_ [_ [_ [_ H]]]]]]. discriminate H.
Qed.

(** ** The trimming of the pieces *)

(** C6.  For every raw argument the architecture and tags variants store
    each comma-split piece with the white space around it taken away
    ([strings.TrimSpace]): a run of white space runes is dropped at each
    end of the piece, and the element stored neither begins nor ends with
    a white space rune; on a raw argument of ASCII bytes that is the piece
    without the white bytes at its front and at its back.  The env variant
    stores the pieces as they are.  [Set(" foo , bar ")] gives [["foo";
    "bar"]] on a tags or architecture flag and leaves [" foo "] and
    [" bar "] on an env flag; a no-break space and an ideographic space
    around a piece are taken away like a space, a letter outside ASCII is
    kept. *)
Theorem trimming_asymmetry :
  (forall value tf,
      fst (tagsFlag_Set value tf) = map TrimSpace (Split value ","%char)) /\
  (forall value af,
      fst (targetArchFlag_Set value af)
      = map TrimSpace (Split value ","%char)) /\
  (forall value ef, fst (envFlag_Set value ef) = Split value ","%char) /\
  (forall tf, tagsFlag_Set " foo , bar " tf = (["foo"; "bar"], nil)) /\
  (forall af, targetArchFlag_Set " foo , bar " af = (["foo"; "bar"], nil)) /\
  (forall ef, fst (envFlag_Set " foo , bar " ef) = [" foo "; " bar "]) /\
  (forall tf,
      tagsFlag_Set (no_break_space ++ "foo" ++ ideographic_space ++ ", "
                    ++ e_acute ++ " ") tf
      = (["foo"; e_acute], nil)) /\
  (forall value tf,
      Forall2 trimmed (Split value ","%char) (fst (tagsFlag_Set value tf))) /\
  (forall value af,
      Forall2 trimmed (Split value ","%char)
              (fst (targetArchFlag_Set value af))) /\
  (forall value prior,
      isASCII (list_ascii_of_string value) = true ->
      fst (tagsFlag_Set value prior) = map trim_ascii (Split value ","%char) /\
      fst (targetArchFlag_Set value prior)
      = map trim_ascii (Split value ","%char)).
Proof.
  repeat apply conj; intros.
  - rewrite tagsFlag_Set_eq. reflexivity.
  - rewrite targetArchFlag_Set_eq. reflexivity.
  - rewrite envFlag_Set_eq. reflexivity.
  - rewrite tagsFlag_Set_eq. reflexivity.
  - rewrite targetArchFlag_Set_eq. reflexivity.
  - rewrite envFlag_Set_eq. reflexivity.
  - rewrite tagsFlag_Set_eq. reflexivity.
  - rewrite tagsFlag_Set_eq. apply map_TrimSpace_trimmed.
  - rewrite targetArchFlag_Set_eq. apply map_TrimSpace_trimmed.
  - assert (Heq : map TrimSpace (Split value ","%char)
                  = map trim_ascii (Split value ","%char)).
    { apply map_ext_in. intros p Hin. apply TrimSpace_ascii.
      pose proof (Split_pieces_ascii value ","%char H) as Hall.
      rewrite Forall_forall in Hall. apply Hall. exact Hin. }
    rewrite tagsFlag_Set_eq, targetArchFlag_Set_eq. cbn [fst].
    split; exact Heq.
Qed.

Lemma trimming_asymmetry_witness :
  isASCII (list_ascii_of_string " a b , c ") = true /\
  fst (tagsFlag_Set " a b , c " ["x"])
  = map trim_ascii (Split " a b , c " ","%char) /\
  fst (targetArchFlag_Set " a b , c " ["x"])
  = map trim_ascii (Split " a b , c " ","%char).
Proof.
  split; [reflexivity|].
  destruct trimming_asymmetry as [_ [_ [_ [_ [_ [_ [_ [_ [_ H]]]]]]]]].
  exact (H " a b , c " ["x"] eq_refl).
Defined.
